(** * TranslationCache: a shallow embedding of [src/translation-cache.ts]

    The class [TranslationCache] is embedded as a record holding its fields
    and a family of state-passing functions, one per method.  JavaScript
    integers (timestamps, lengths, byte counts, counters) are [Z]; the two
    quotients of [getMetrics] are IEEE binary64 values, as in the source.
    A [Map] is the list of its entries in insertion order, which is the
    order [Map.prototype.entries] and [forEach] enumerate. *)

From Stdlib Require Import ZArith List String Ascii Bool Lia.
From Stdlib Require Import Permutation Sorted.
From Stdlib Require Import PrimFloat Uint63.
Import ListNotations.

Open Scope string_scope.
Open Scope list_scope.
Open Scope Z_scope.

(** ** Data *)

(** [interface CacheItem]. *)
Record CacheItem := mkItem {
  result : string;
  timestamp : Z;
  from : string;
  to : string
}.

Definition Entry : Type := (string * CacheItem)%type.

(** [Map<string, CacheItem>]: entries in insertion order, keys unique. *)
Definition JSMap : Type := list Entry.

Fixpoint Map_get (k : string) (m : JSMap) : option CacheItem :=
  match m with
  | [] => None
  | (k', v) :: m' => if String.eqb k k' then Some v else Map_get k m'
  end.

Definition Map_has (k : string) (m : JSMap) : bool :=
  match Map_get k m with Some _ => true | None => false end.

(** [Map.prototype.set]: an existing key keeps its position, a new key goes
    to the end. *)
Fixpoint Map_set (k : string) (v : CacheItem) (m : JSMap) : JSMap :=
  match m with
  | [] => [(k, v)]
  | (k', v') :: m' =>
      if String.eqb k k' then (k, v) :: m' else (k', v') :: Map_set k v m'
  end.

Fixpoint Map_delete (k : string) (m : JSMap) : JSMap :=
  match m with
  | [] => []
  | (k', v') :: m' =>
      if String.eqb k k' then Map_delete k m' else (k', v') :: Map_delete k m'
  end.

Definition keys (m : JSMap) : list string := map fst m.

(** The [metrics] object. *)
Record Metrics := mkMetrics {
  hits : Z;
  misses : Z;
  totalResponseTime : Z;
  responses : Z
}.

(** What one call of [saveCache] did: returned early, or wrote the given
    object with [globalState.update]. *)
Inductive SaveEvent :=
| SaveDropped (now : Z)
| SaveWritten (now : Z) (cacheObject : JSMap).

(** The fields of the class, followed by the part of the host the class
    talks to: the value stored under [CACHE_KEY] in [context.globalState]
    ([None] is [undefined]), the number of [Date.now()] calls made so far,
    and the history of [saveCache] calls, most recent first. *)
Record TranslationCache := mkCache {
  cache : JSMap;
  expirationTime : Z;
  maxCacheSize : Z;
  currentCacheSize : Z;
  metrics : Metrics;
  lastSaveTime : Z;
  globalState : option JSMap;
  ticks : nat;
  saves : list SaveEvent
}.

Definition with_cache (m : JSMap) (c : TranslationCache) : TranslationCache :=
  mkCache m (expirationTime c) (maxCacheSize c) (currentCacheSize c)
          (metrics c) (lastSaveTime c) (globalState c) (ticks c) (saves c).

Definition with_currentCacheSize (n : Z) (c : TranslationCache) : TranslationCache :=
  mkCache (cache c) (expirationTime c) (maxCacheSize c) n
          (metrics c) (lastSaveTime c) (globalState c) (ticks c) (saves c).

Definition with_metrics (ms : Metrics) (c : TranslationCache) : TranslationCache :=
  mkCache (cache c) (expirationTime c) (maxCacheSize c) (currentCacheSize c)
          ms (lastSaveTime c) (globalState c) (ticks c) (saves c).

Definition with_lastSaveTime (t : Z) (c : TranslationCache) : TranslationCache :=
  mkCache (cache c) (expirationTime c) (maxCacheSize c) (currentCacheSize c)
          (metrics c) t (globalState c) (ticks c) (saves c).

Definition with_globalState (g : option JSMap) (c : TranslationCache) : TranslationCache :=
  mkCache (cache c) (expirationTime c) (maxCacheSize c) (currentCacheSize c)
          (metrics c) (lastSaveTime c) g (ticks c) (saves c).

Definition with_ticks (n : nat) (c : TranslationCache) : TranslationCache :=
  mkCache (cache c) (expirationTime c) (maxCacheSize c) (currentCacheSize c)
          (metrics c) (lastSaveTime c) (globalState c) n (saves c).

Definition with_saves (l : list SaveEvent) (c : TranslationCache) : TranslationCache :=
  mkCache (cache c) (expirationTime c) (maxCacheSize c) (currentCacheSize c)
          (metrics c) (lastSaveTime c) (globalState c) (ticks c) l.

(** The object [getMetrics] returns. *)
Module Report.

Record t := mk {
  hitRate : float;
  avgResponseTime : float;
  size : Z
}.

End Report.

(** An integer as a JavaScript number. *)
Definition Z2float (z : Z) : float :=
  if z <? 0 then PrimFloat.opp (PrimFloat.of_uint63 (Uint63.of_Z (- z)))
  else PrimFloat.of_uint63 (Uint63.of_Z z).

(** ** Pure methods *)

(** [generateKey]: the template string [`${text}|${from}|${to}`]. *)
Definition generateKey (text from to : string) : string :=
  text ++ "|" ++ from ++ "|" ++ to.

Definition len (s : string) : Z := Z.of_nat (String.length s).

(** [calculateItemSize]. *)
Definition calculateItemSize (key : string) (item : CacheItem) : Z :=
  let keySize := len key * 2 in
  let resultSize := len (result item) * 2 in
  let fromSize := len (from item) * 2 in
  let toSize := len (to item) * 2 in
  let timestampSize := 8 in
  keySize + resultSize + fromSize + toSize + timestampSize.

(** [Array.prototype.sort] with the comparator [a.timestamp - b.timestamp].
    The sort is stable, so its result is the unique arrangement that is
    ascending in [timestamp] and keeps entries of equal [timestamp] in their
    original order; a stable insertion sort computes that arrangement. *)
Fixpoint insert_by_timestamp (e : Entry) (l : list Entry) : list Entry :=
  match l with
  | [] => [e]
  | x :: l' =>
      if timestamp (snd e) <=? timestamp (snd x) then e :: x :: l'
      else x :: insert_by_timestamp e l'
  end.

Definition sort_by_timestamp (l : list Entry) : list Entry :=
  fold_right insert_by_timestamp [] l.

(** [getMetrics]. *)
Definition getMetrics (c : TranslationCache) : Report.t :=
  let total := hits (metrics c) + misses (metrics c) in
  Report.mk
    (if total >? 0
     then PrimFloat.mul (PrimFloat.div (Z2float (hits (metrics c))) (Z2float total))
                        (Z2float 100)
     else Z2float 0)
    (if responses (metrics c) >? 0
     then PrimFloat.div (Z2float (totalResponseTime (metrics c)))
                        (Z2float (responses (metrics c)))
     else Z2float 0)
    (currentCacheSize c).

(** [size()]: [this.cache.size]. *)
Definition size (c : TranslationCache) : Z := Z.of_nat (List.length (cache c)).

(** ** Stateful methods *)

Section Methods.

(** [clock n] is what the [n]-th call of [Date.now()] returns. *)
Variable clock : nat -> Z.

Definition Date_now (c : TranslationCache) : Z * TranslationCache :=
  (clock (ticks c), with_ticks (S (ticks c)) c).

(** [saveCache].  [globalState.update] is fire-and-forget and does not
    throw, so the [catch] branch is not reachable. *)
Definition saveCache (c : TranslationCache) : TranslationCache :=
  let (now, c) := Date_now c in
  if now - lastSaveTime c <? 1000 then
    with_saves (SaveDropped now :: saves c) c
  else
    let c := with_lastSaveTime now c in
    let cacheObject := cache c in
    with_saves (SaveWritten now cacheObject :: saves c)
               (with_globalState (Some cacheObject) c).

(** [loadCache].  [Object.keys(cachedData).forEach] visits the stored
    entries in order; the stored object is the list of its properties, each
    key occurring once.  [globalState.get] does not throw, so the [catch]
    branch is not reachable. *)
Definition loadCache (c : TranslationCache) : TranslationCache :=
  match globalState c with
  | Some cachedData =>
      fold_left
        (fun c (e : Entry) =>
           let (key, item) := e in
           let c := with_cache (Map_set key item (cache c)) c in
           with_currentCacheSize
             (currentCacheSize c + calculateItemSize key item) c)
        cachedData
        (with_currentCacheSize 0 c)
  | None => c
  end.

(** [cleanExpiredCache].  [Map.prototype.forEach] visits every entry that
    is in the map when the loop starts and has not been deleted before it
    is reached; the callback deletes only the entry it is visiting. *)
Definition cleanExpiredCache (c : TranslationCache) : TranslationCache :=
  let (now, c) := Date_now c in
  let '(c, expiredCount) :=
    fold_left
      (fun (st : TranslationCache * Z) (e : Entry) =>
         let (c, expiredCount) := st in
         let (key, item) := e in
         if now - timestamp item >? expirationTime c
         then (with_cache (Map_delete key (cache c)) c, expiredCount + 1)
         else (c, expiredCount))
      (cache c) (c, 0) in
  if expiredCount >? 0 then saveCache c else c.

(** The constructor: field initialisers first ([lastSaveTime] reads the
    clock), then the body.  [stored] is what [globalState] holds under
    [CACHE_KEY] and [ticks0] the number of clock readings made before. *)
Definition constructor (stored : option JSMap) (ticks0 : nat)
    (expirationDays maxCacheSizeMB : Z) : TranslationCache :=
  let c :=
    mkCache [] (expirationDays * 24 * 60 * 60 * 1000)
            (maxCacheSizeMB * 1024 * 1024) 0 (mkMetrics 0 0 0 0)
            (clock ticks0) stored (S ticks0) [] in
  let c := loadCache c in
  cleanExpiredCache c.

(** [get]. *)
Definition get (text from to : string) (c : TranslationCache)
  : option string * TranslationCache :=
  let (startTime, c) := Date_now c in
  let key := generateKey text from to in
  match Map_get key (cache c) with
  | None =>
      let m := metrics c in
      (None,
       with_metrics
         (mkMetrics (hits m) (misses m + 1) (totalResponseTime m) (responses m)) c)
  | Some cachedItem =>
      let (now, c) := Date_now c in
      if now - timestamp cachedItem >? expirationTime c then
        let c := with_cache (Map_delete key (cache c)) c in
        let c := saveCache c in
        (None, c)
      else
        let m := metrics c in
        let m := mkMetrics (hits m + 1) (misses m) (totalResponseTime m) (responses m) in
        let (endTime, c) := Date_now c in
        let m := mkMetrics (hits m) (misses m)
                           (totalResponseTime m + (endTime - startTime))
                           (responses m) in
        let m := mkMetrics (hits m) (misses m) (totalResponseTime m) (responses m + 1) in
        (Some (result cachedItem), with_metrics m c)
  end.

(** The [while] loop of [checkAndCleanCacheSize]; [items.shift()] is the
    head of [items]. *)
Fixpoint evictLoop (items : list Entry) (c : TranslationCache) (cleanedCount : Z)
  : TranslationCache * Z :=
  match items with
  | [] => (c, cleanedCount)
  | (key, item) :: items' =>
      if currentCacheSize c >? maxCacheSize c then
        let itemSize := calculateItemSize key item in
        let c := with_cache (Map_delete key (cache c)) c in
        let c := with_currentCacheSize (currentCacheSize c - itemSize) c in
        evictLoop items' c (cleanedCount + 1)
      else (c, cleanedCount)
  end.

(** [checkAndCleanCacheSize]. *)
Definition checkAndCleanCacheSize (c : TranslationCache) : TranslationCache :=
  if currentCacheSize c <=? maxCacheSize c then c
  else
    let items := sort_by_timestamp (cache c) in
    let (c, cleanedCount) := evictLoop items c 0 in
    if cleanedCount >? 0 then saveCache c else c.

(** [set]. *)
Definition set (text result from to : string) (c : TranslationCache)
  : TranslationCache :=
  let key := generateKey text from to in
  let (now, c) := Date_now c in
  let cacheItem := mkItem result now from to in
  let c :=
    if Map_has key (cache c) then
      match Map_get key (cache c) with
      | Some oldItem =>
          with_currentCacheSize
            (currentCacheSize c - calculateItemSize key oldItem) c
      | None => c
      end
    else c in
  let newItemSize := calculateItemSize key cacheItem in
  let c := with_currentCacheSize (currentCacheSize c + newItemSize) c in
  let c := with_cache (Map_set key cacheItem (cache c)) c in
  let c := checkAndCleanCacheSize c in
  saveCache c.

(** [clear]. *)
Definition clear (c : TranslationCache) : TranslationCache :=
  let c := with_cache [] c in
  let c := with_currentCacheSize 0 c in
  saveCache c.

End Methods.

(** ** The translator's use of the cache ([src/baidu-translator.ts]) *)

(** A string in a condition: the empty string counts as false. *)
Definition truthy (s : string) : bool := negb (String.eqb s "").

(** An optional string in a condition: [undefined] and [null] count as
    false. *)
Definition truthyOpt (o : option string) : bool :=
  match o with Some s => truthy s | None => false end.

(** The string a condition has found true. *)
Definition whenTruthy (o : option string) : option string :=
  if truthyOpt o then o else None.

Module Baidu.

(** [interface BaiduTranslatorConfig]. *)
Record Config := mkConfig {
  appid : string;
  key : string;
  salt : string
}.

(** The three values under [uliTranslation.baidu] in the user's settings;
    [None] is a value that is not set. *)
Record Settings := mkSettings {
  setAppid : option string;
  setKey : option string;
  setSalt : option string
}.

(** The fields of [class BaiduTranslator]. *)
Record Translator := mkTranslator {
  config : Config;
  cache : option TranslationCache;
  lastCacheAccessTime : Z
}.

(** The two errors [translate] throws before it sends a request. *)
Inductive Error :=
| ConfigInvalid
| TextTooLong.

(** How the part of [translate] that precedes the request ends: with an
    error, with a value taken from the cache ([warned] tells whether the
    slow-cache warning was shown), or by going on to the request. *)
Inductive Outcome :=
| Throws (e : Error)
| Returns (value : string) (warned : bool)
| Requests.

(** [value || '']. *)
Definition orEmpty (o : option string) : string :=
  match o with Some s => if truthy s then s else "" | None => "" end.

(** [loadConfig]. *)
Definition loadConfig (settings : Settings) (t : Translator) : Translator :=
  mkTranslator
    (mkConfig (orEmpty (setAppid settings)) (orEmpty (setKey settings))
              (orEmpty (setSalt settings)))
    (cache t) (lastCacheAccessTime t).

(** [isConfigValid]. *)
Definition isConfigValid (t : Translator) : bool :=
  truthy (appid (config t)) && truthy (key (config t)).

(** [getCacheMetrics]. *)
Definition getCacheMetrics (t : Translator) : option Report.t :=
  match cache t with
  | None => None
  | Some c => Some (getMetrics c)
  end.

Section WithClock.

Variable clock : nat -> Z.

(** [initCache]; [stored] and [ticks0] describe the host as for
    [constructor]. *)
Definition initCache (stored : option JSMap) (ticks0 : nat)
    (expirationDays maxCacheSizeMB : Z) (t : Translator) : Translator :=
  mkTranslator (config t)
    (Some (constructor clock stored ticks0 expirationDays maxCacheSizeMB))
    (lastCacheAccessTime t).

(** [translate], from its first line to the point where it either returns
    a cached value, throws, or goes on to build the request.  [from] and
    [to] default to ['auto'] and ['zh'].  The callback that may clear the
    cache after the slow-cache warning runs only when the user answers and
    is not part of this step. *)
Definition translate (settings : Settings) (text : string)
    (from to formatOption : option string) (t : Translator)
  : Outcome * Translator :=
  let from := match from with Some f => f | None => "auto" end in
  let to := match to with Some f => f | None => "zh" end in
  let t := loadConfig settings t in
  if negb (isConfigValid t) then (Throws ConfigInvalid, t)
  else if len text >? 2000 then (Throws TextTooLong, t)
  else
    match cache t with
    | None => (Requests, t)
    | Some c =>
        let (startTime, c) := Date_now clock c in
        let cacheKey :=
          match formatOption with
          | Some f => if truthy f then (text ++ "|" ++ f)%string else text
          | None => text
          end in
        let (cachedResult, c) := get clock cacheKey from to c in
        match whenTruthy cachedResult with
        | Some value =>
            let (now, c) := Date_now clock c in
            let responseTime := now - startTime in
            (Returns value (responseTime >? 500),
             mkTranslator (config t) (Some c) startTime)
        | None =>
            if truthyOpt formatOption then
              let (originalCachedResult, c) := get clock text from to c in
              match whenTruthy originalCachedResult with
              | Some value =>
                  (Returns value false, mkTranslator (config t) (Some c) startTime)
              | None => (Requests, mkTranslator (config t) (Some c) startTime)
              end
            else (Requests, mkTranslator (config t) (Some c) startTime)
        end
    end.

(** The end of [translate] after a response without error code: the [dst]
    fields of [trans_result] are joined with line feeds, stored in the
    cache under the text itself, and returned. *)
Definition translateResult (text : string) (from to : option string)
    (dsts : list string) (t : Translator) : string * Translator :=
  let from := match from with Some f => f | None => "auto" end in
  let to := match to with Some f => f | None => "zh" end in
  let translatedText := String.concat (String "010" EmptyString) dsts in
  match cache t with
  | Some c =>
      (translatedText,
       mkTranslator (config t) (Some (set clock text translatedText from to c))
                    (lastCacheAccessTime t))
  | None => (translatedText, t)
  end.

End WithClock.

End Baidu.

(** ** [escapeHtml] ([src/tencent-translator.ts]) *)

(** [s.replace(/ch/g, rep)] for a single character [ch]. *)
Fixpoint replaceAll (ch : ascii) (rep : string) (s : string) : string :=
  match s with
  | EmptyString => EmptyString
  | String c s' =>
      if Ascii.eqb c ch then (rep ++ replaceAll ch rep s')%string
      else String c (replaceAll ch rep s')
  end.

(** The double quote character. *)
Definition dquote : ascii := ascii_of_nat 34.

(** [escapeHtml]. *)
Definition escapeHtml (text : string) : string :=
  if negb (truthy text) then ""
  else
    replaceAll "'" "&#039;"
      (replaceAll dquote "&quot;"
         (replaceAll ">" "&gt;"
            (replaceAll "<" "&lt;"
               (replaceAll "&" "&amp;" text)))).

(** Whether a character occurs in a string. *)
Fixpoint occurs (ch : ascii) (s : string) : bool :=
  match s with
  | EmptyString => false
  | String c s' => Ascii.eqb c ch || occurs ch s'
  end.

(** What [escapeHtml] makes of one character. *)
Definition escapeChar (c : ascii) : string :=
  if Ascii.eqb c "&" then "&amp;"
  else if Ascii.eqb c "<" then "&lt;"
  else if Ascii.eqb c ">" then "&gt;"
  else if Ascii.eqb c dquote then "&quot;"
  else if Ascii.eqb c "'" then "&#039;"
  else String c EmptyString.

(** The five passes of [escapeHtml], without its test for the empty
    string. *)
Definition passes (s : string) : string :=
  replaceAll "'" "&#039;"
    (replaceAll dquote "&quot;"
       (replaceAll ">" "&gt;"
          (replaceAll "<" "&lt;"
             (replaceAll "&" "&amp;" s)))).

(** [escapeHtml] as one pass over the characters. *)
Fixpoint escapeAll (s : string) : string :=
  match s with
  | EmptyString => EmptyString
  | String c s' => (escapeChar c ++ escapeAll s')%string
  end.

(** ** Definitions used to state the properties *)

(** The sum of the size estimates of the entries of a map. *)
Definition entriesSize (m : JSMap) : Z :=
  fold_right (fun (e : Entry) acc => calculateItemSize (fst e) (snd e) + acc) 0 m.

(** Ascending [timestamp] order on entries. *)
Definition le_timestamp (a b : Entry) : Prop :=
  timestamp (snd a) <= timestamp (snd b).

(** Deleting the keys of a list of entries, first to last. *)
Definition deleteAll (es : list Entry) (m : JSMap) : JSMap :=
  fold_left (fun m (e : Entry) => Map_delete (fst e) m) es m.

(** The size estimate of one entry, as the specification writes it. *)
Definition byteSizeEstimate (key value sourceTag targetTag : string) : Z :=
  2 * (len key + len value + len sourceTag + len targetTag) + 8.

(** The state the specification describes for [set] at the point where the
    eviction manager is invoked: the old size, if the key exists, is
    subtracted, a fresh entry stamped with the current time replaces any
    prior entry, and the new size is added. *)
Definition set_stored (clock : nat -> Z) (text value sourceTag targetTag : string)
    (c : TranslationCache) : TranslationCache :=
  let key := generateKey text sourceTag targetTag in
  let old :=
    match Map_get key (cache c) with
    | Some oldItem =>
        byteSizeEstimate key (result oldItem) (from oldItem) (to oldItem)
    | None => 0
    end in
  with_cache
    (Map_set key (mkItem value (clock (ticks c)) sourceTag targetTag) (cache c))
    (with_currentCacheSize
       (currentCacheSize c - old + byteSizeEstimate key value sourceTag targetTag)
       (with_ticks (S (ticks c)) c)).

(** The entries the loop of [checkAndCleanCacheSize] removes, in the order
    it removes them, given the list it walks and the accounted size and cap
    it starts from. *)
Fixpoint evictedPrefix (items : list Entry) (sz mx : Z) : list Entry :=
  match items with
  | [] => []
  | e :: items' =>
      if sz >? mx
      then e :: evictedPrefix items' (sz - calculateItemSize (fst e) (snd e)) mx
      else []
  end.

(** Whether a string contains the separator [|] of [generateKey]. *)
Fixpoint has_separator (s : string) : bool :=
  match s with
  | EmptyString => false
  | String ch s' => Ascii.eqb ch "|" || has_separator s'
  end.

(** The accounting invariant of the store. *)
Definition accounted (c : TranslationCache) : Prop :=
  currentCacheSize c = entriesSize (cache c).

(** The time of the most recent write in a history of [saveCache] calls. *)
Fixpoint lastWrite (h : list SaveEvent) : option Z :=
  match h with
  | [] => None
  | SaveWritten t _ :: _ => Some t
  | SaveDropped _ :: h' => lastWrite h'
  end.

(** [lastSaveTime] holds the time of the most recent write or, when nothing
    has been written yet, the time [t0] at which the instance was created. *)
Definition lastSaveTime_tracks (t0 : Z) (c : TranslationCache) : Prop :=
  lastSaveTime c = match lastWrite (saves c) with Some t => t | None => t0 end.

(** *** Expiration and the persisted snapshot *)

(** The test both [cleanExpiredCache] and [get] apply to an entry. *)
Definition expiredAt (now window : Z) (e : Entry) : bool :=
  now - timestamp (snd e) >? window.

(** The object written by the most recent write of a history. *)
Fixpoint lastWritten (h : list SaveEvent) : option JSMap :=
  match h with
  | [] => None
  | SaveWritten _ o :: _ => Some o
  | SaveDropped _ :: h' => lastWritten h'
  end.

(** Every write of the history comes at least 1000 ms after the write
    before it, or after [t0] when it is the first. *)
Fixpoint spaced (t0 : Z) (h : list SaveEvent) : Prop :=
  match h with
  | [] => True
  | SaveDropped _ :: h' => spaced t0 h'
  | SaveWritten t _ :: h' =>
      t - match lastWrite h' with Some t' => t' | None => t0 end >= 1000 /\
      spaced t0 h'
  end.

(** The entries of the value stored under [CACHE_KEY]; none when it is
    [undefined]. *)
Definition storedEntries (g : option JSMap) : JSMap :=
  match g with Some m => m | None => [] end.

(** [lastSaveTime] tracks the writes and the writes are spaced. *)
Definition throttled (t0 : Z) (c : TranslationCache) : Prop :=
  lastSaveTime_tracks t0 c /\ spaced t0 (saves c).

(** *** Sequences of calls *)

(** A call of one of the three public mutators. *)
Inductive Op :=
| OpGet (text sourceTag targetTag : string)
| OpSet (text value sourceTag targetTag : string)
| OpClear.

(** How a call of [get] ends: with the cached value after [latency]
    milliseconds between its first and its last clock reading, with no
    entry under the key, or with an entry that has expired. *)
Inductive Outcome :=
| Hit (latency : Z)
| Miss
| Expired.

Section Runs.

Variable clock : nat -> Z.

Definition apply_op (o : Op) (c : TranslationCache) : TranslationCache :=
  match o with
  | OpGet text sourceTag targetTag => snd (get clock text sourceTag targetTag c)
  | OpSet text value sourceTag targetTag => set clock text value sourceTag targetTag c
  | OpClear => clear clock c
  end.

Definition exec (ops : list Op) (c : TranslationCache) : TranslationCache :=
  fold_left (fun c o => apply_op o c) ops c.

(** The outcome of a [get], read off the state it starts in. *)
Definition lookupOutcome (text sourceTag targetTag : string) (c : TranslationCache)
  : Outcome :=
  match Map_get (generateKey text sourceTag targetTag) (cache c) with
  | None => Miss
  | Some item =>
      if clock (S (ticks c)) - timestamp item >? expirationTime c then Expired
      else Hit (clock (S (S (ticks c))) - clock (ticks c))
  end.

(** The outcomes of the [get] calls of a run, in order. *)
Fixpoint lookups (ops : list Op) (c : TranslationCache) : list Outcome :=
  match ops with
  | [] => []
  | o :: ops' =>
      match o with
      | OpGet text sourceTag targetTag =>
          [lookupOutcome text sourceTag targetTag c]
      | _ => []
      end ++ lookups ops' (apply_op o c)
  end.

End Runs.

Definition hitLatencies (outs : list Outcome) : list Z :=
  flat_map (fun o => match o with Hit l => [l] | _ => [] end) outs.

Definition missCount (outs : list Outcome) : Z :=
  Z.of_nat (List.length (filter (fun o => match o with Miss => true | _ => false end) outs)).

Definition sumZ (l : list Z) : Z := fold_right Z.add 0 l.

(** *** Concrete hosts *)

(** A clock that starts at 1_000_000_000 ms and advances by one
    millisecond with every reading. *)
Definition tickingClock (n : nat) : Z := 1000000000 + Z.of_nat n.

(** A clock that stands still. *)
Definition frozenClock (n : nat) : Z := 1000000000.

(** A clock on which readings grow further and further apart. *)
Definition slowingClock (n : nat) : Z := 1000000000 + Z.of_nat (n * n).

(** A clock that ticks like [tickingClock] for its first four readings and
    then jumps ahead by one day and one second. *)
Definition dayLaterClock (n : nat) : Z :=
  if (n <? 4)%nat then 1000000000 + Z.of_nat n
  else 1000000000 + 86400000 + 1000 + Z.of_nat n.

(** A persisted snapshot holding one entry written at time 0. *)
Definition oldSnapshot : JSMap := [("x|auto|en", mkItem "y" 0 "auto" "en")].

(** A persisted snapshot holding one entry written at 999_999_000 ms. *)
Definition recentSnapshot : JSMap :=
  [("hi|en|de", mkItem "v2" 999999000 "en" "de")].

(** One [set], three [get]s that find the entry and one that finds none. *)
Definition threeHitsOneMiss : list Op :=
  [OpSet "x" "y" "auto" "en";
   OpGet "x" "auto" "en";
   OpGet "x" "auto" "en";
   OpGet "z" "auto" "en";
   OpGet "x" "auto" "en"].

(** A store of three entries of 36 bytes each, created 10 ms apart about a
    second before [tickingClock] starts, under a cap of 130 bytes. *)
Definition threeEntries : TranslationCache :=
  mkCache [("a|en|fr", mkItem "aaa" 999000010 "en" "fr");
           ("b|en|fr", mkItem "bbb" 999000020 "en" "fr");
           ("c|en|fr", mkItem "ccc" 999000030 "en" "fr")]
          259200000 130 108 (mkMetrics 0 0 0 0) 0 None 0 [].

(** A clock that advances by one second with every reading. *)
Definition secondsClock (n : nat) : Z := 1000000000 + 1000 * Z.of_nat n.

(** A persisted snapshot whose one entry holds the empty string. *)
Definition emptyResultSnapshot : JSMap :=
  [("x|auto|zh", mkItem "" 999999000 "auto" "zh")].

(** Settings with an [appid] and a [key], and settings without a [key]. *)
Definition validSettings : Baidu.Settings :=
  Baidu.mkSettings (Some "20240001") (Some "secret") None.


(** A translator as its constructor leaves it when it is given no
    context, and translators whose cache was initialised over an empty
    store and over the two snapshots. *)
Definition bareTranslator : Baidu.Translator :=
  Baidu.mkTranslator (Baidu.mkConfig "" "" "") None 0.

Definition freshTranslator : Baidu.Translator :=
  Baidu.initCache tickingClock None 0 3 20 bareTranslator.

Definition translatorWithEmptyResult : Baidu.Translator :=
  Baidu.initCache tickingClock (Some emptyResultSnapshot) 0 3 20 bareTranslator.

Definition translatorWithRecent : Baidu.Translator :=
  Baidu.initCache tickingClock (Some recentSnapshot) 0 3 20 bareTranslator.

(** ** Facts about maps *)

Lemma Map_get_set_eq k v m : Map_get k (Map_set k v m) = Some v.
Proof.
  induction m as [|[k' v'] m IH]; simpl.
  - now rewrite String.eqb_refl.
  - destruct (String.eqb k k') eqn:E; simpl.
    + now rewrite String.eqb_refl.
    + now rewrite E.
Qed.

Lemma Map_get_set_neq k k' v m :
  k <> k' -> Map_get k' (Map_set k v m) = Map_get k' m.
Proof.
  intros Hne. induction m as [|[k0 v0] m IH]; simpl.
  - destruct (String.eqb_spec k' k); congruence.
  - destruct (String.eqb_spec k k0); simpl.
    + subst k0. destruct (String.eqb_spec k' k); congruence.
    + destruct (String.eqb_spec k' k0); congruence.
Qed.

Lemma Map_get_delete_eq k m : Map_get k (Map_delete k m) = None.
Proof.
  induction m as [|[k' v'] m IH]; simpl; auto.
  destruct (String.eqb k k') eqn:E; simpl; auto.
  now rewrite E.
Qed.

Lemma Map_get_delete_neq k k' m :
  k <> k' -> Map_get k' (Map_delete k m) = Map_get k' m.
Proof.
  intros Hne. induction m as [|[k0 v0] m IH]; simpl; auto.
  destruct (String.eqb_spec k k0); simpl.
  - subst k0. destruct (String.eqb_spec k' k); congruence.
  - destruct (String.eqb_spec k' k0); congruence.
Qed.

Lemma Map_get_delete_cases k k' m :
  Map_get k' (Map_delete k m) = Map_get k' m \/
  Map_get k' (Map_delete k m) = None.
Proof.
  destruct (string_dec k k') as [->|Hne].
  - right. apply Map_get_delete_eq.
  - left. now apply Map_get_delete_neq.
Qed.

Lemma In_Map_delete e k m :
  In e (Map_delete k m) <-> In e m /\ fst e <> k.
Proof.
  induction m as [|[k' v'] m IH]; simpl.
  - tauto.
  - destruct (String.eqb_spec k k'); simpl.
    + subst k'. rewrite IH. split.
      * tauto.
      * intros [[<-|H] Hne]; simpl in *; tauto.
    + rewrite IH. split.
      * intros [<-|[H Hne]]; simpl; auto.
      * intros [[<-|H] Hne]; auto.
Qed.

Lemma Map_get_In k v m : Map_get k m = Some v -> In (k, v) m.
Proof.
  induction m as [|[k' v'] m IH]; simpl; try discriminate.
  destruct (String.eqb_spec k k').
  - intros [= ->]. subst. auto.
  - auto.
Qed.

Lemma Map_get_None_notin k m : Map_get k m = None -> ~ In k (keys m).
Proof.
  induction m as [|[k' v'] m IH]; simpl; auto.
  destruct (String.eqb_spec k k'); try discriminate.
  intros H [E|HIn]; [congruence | now apply IH].
Qed.

Lemma In_Map_get k v m : NoDup (keys m) -> In (k, v) m -> Map_get k m = Some v.
Proof.
  induction m as [|[k' v'] m IH]; simpl; intros Hnd HIn; [tauto|].
  inversion Hnd as [|? ? Hnotin Hnd']; subst.
  destruct HIn as [[= -> ->]|HIn].
  - now rewrite String.eqb_refl.
  - destruct (String.eqb_spec k k').
    + subst k'. exfalso. apply Hnotin. apply (in_map fst) in HIn. exact HIn.
    + auto.
Qed.

Lemma keys_Map_delete_incl k m x : In x (keys (Map_delete k m)) -> In x (keys m).
Proof.
  unfold keys. rewrite !in_map_iff. intros [e [<- HIn]].
  apply In_Map_delete in HIn. exists e. tauto.
Qed.

Lemma NoDup_Map_delete k m : NoDup (keys m) -> NoDup (keys (Map_delete k m)).
Proof.
  induction m as [|[k' v'] m IH]; simpl; auto.
  intros Hnd. inversion Hnd as [|? ? Hnotin Hnd']; subst.
  destruct (String.eqb k k'); simpl; auto.
  constructor; auto.
  intros HIn. apply Hnotin. eapply keys_Map_delete_incl; eauto.
Qed.

Lemma keys_Map_set_incl k v m x : In x (keys (Map_set k v m)) -> x = k \/ In x (keys m).
Proof.
  induction m as [|[k' v'] m IH]; simpl.
  - intros [<-|[]]; auto.
  - destruct (String.eqb_spec k k'); simpl.
    + subst k'. intros [<-|H]; auto.
    + intros [<-|H]; auto. destruct (IH H); auto.
Qed.

Lemma NoDup_Map_set k v m : NoDup (keys m) -> NoDup (keys (Map_set k v m)).
Proof.
  induction m as [|[k' v'] m IH]; simpl.
  - intros _. constructor; [simpl; tauto | constructor].
  - intros Hnd. inversion Hnd as [|? ? Hnotin Hnd']; subst.
    destruct (String.eqb_spec k k'); simpl.
    + subst k'. constructor; auto.
    + constructor; auto.
      intros HIn. apply keys_Map_set_incl in HIn. destruct HIn; congruence.
Qed.

Lemma Map_delete_absent k m : ~ In k (keys m) -> Map_delete k m = m.
Proof.
  induction m as [|[k' v'] m IH]; simpl; auto.
  intros Hnotin. destruct (String.eqb_spec k k').
  - subst. tauto.
  - rewrite IH by tauto. reflexivity.
Qed.

(** ** Facts about keys *)

Lemma append_assoc_string (a b c : string) :
  ((a ++ b) ++ c = a ++ (b ++ c))%string.
Proof.
  induction a as [|ch a IH]; simpl; [reflexivity | now rewrite IH].
Qed.

Lemma has_separator_app_bar (a b : string) :
  has_separator (a ++ String "|" b)%string = true.
Proof.
  induction a as [|ch a IH]; simpl.
  - reflexivity.
  - rewrite IH. apply orb_true_r.
Qed.

(** A string splits in only one way at its last separator. *)
Lemma split_at_last_separator : forall (a a' b b' : string),
  has_separator b = false -> has_separator b' = false ->
  (a ++ "|" ++ b = a' ++ "|" ++ b')%string ->
  a = a' /\ b = b'.
Proof.
  induction a as [|ch a IH]; intros [|ch' a'] b b' Hb Hb'; simpl.
  - intros [= ->]. auto.
  - intros [= <- ->]. rewrite has_separator_app_bar in Hb. discriminate.
  - intros [= -> <-]. rewrite has_separator_app_bar in Hb'. discriminate.
  - intros [= -> H]. destruct (IH a' b b' Hb Hb' H) as [-> ->]. auto.
Qed.

(** Without a separator in the two tags the key determines the triple. *)
Lemma generateKey_injective t1 f1 o1 t2 f2 o2 :
  has_separator f1 = false -> has_separator o1 = false ->
  has_separator f2 = false -> has_separator o2 = false ->
  generateKey t1 f1 o1 = generateKey t2 f2 o2 ->
  t1 = t2 /\ f1 = f2 /\ o1 = o2.
Proof.
  unfold generateKey. intros Hf1 Ho1 Hf2 Ho2 H.
  assert (H' : ((t1 ++ "|" ++ f1) ++ "|" ++ o1
                = (t2 ++ "|" ++ f2) ++ "|" ++ o2)%string).
  { rewrite !append_assoc_string. simpl. exact H. }
  destruct (split_at_last_separator _ _ _ _ Ho1 Ho2 H') as [H1 ->].
  destruct (split_at_last_separator _ _ _ _ Hf1 Hf2 H1) as [-> ->].
  auto.
Qed.

(** ** Facts about the size estimate *)

Lemma entriesSize_app l1 l2 :
  entriesSize (l1 ++ l2) = entriesSize l1 + entriesSize l2.
Proof.
  induction l1 as [|e l1 IH]; simpl; [reflexivity|].
  rewrite IH. lia.
Qed.

Lemma entriesSize_Map_set k v m :
  entriesSize (Map_set k v m) =
  entriesSize m
  - match Map_get k m with Some old => calculateItemSize k old | None => 0 end
  + calculateItemSize k v.
Proof.
  induction m as [|[k' v'] m IH]; simpl.
  - lia.
  - destruct (String.eqb_spec k k'); simpl.
    + subst k'. lia.
    + rewrite IH. lia.
Qed.

Lemma entriesSize_Map_delete k m :
  NoDup (keys m) ->
  entriesSize (Map_delete k m) =
  entriesSize m
  - match Map_get k m with Some old => calculateItemSize k old | None => 0 end.
Proof.
  induction m as [|[k' v'] m IH]; simpl; intros Hnd.
  - reflexivity.
  - inversion Hnd as [|? ? Hnotin Hnd']; subst.
    destruct (String.eqb_spec k k'); simpl.
    + subst k'. rewrite Map_delete_absent by assumption. lia.
    + rewrite IH by assumption. lia.
Qed.

Lemma entriesSize_Permutation l1 l2 :
  Permutation l1 l2 -> entriesSize l1 = entriesSize l2.
Proof.
  induction 1; simpl; lia.
Qed.

(** ** Facts about the sort *)

Lemma insert_by_timestamp_Permutation e l :
  Permutation (insert_by_timestamp e l) (e :: l).
Proof.
  induction l as [|x l IH]; simpl; auto.
  destruct (timestamp (snd e) <=? timestamp (snd x)); auto.
  rewrite IH. apply perm_swap.
Qed.

Lemma sort_by_timestamp_Permutation l : Permutation (sort_by_timestamp l) l.
Proof.
  induction l as [|e l IH]; simpl; auto.
  rewrite insert_by_timestamp_Permutation. now constructor.
Qed.

Lemma insert_by_timestamp_sorted e l :
  StronglySorted le_timestamp l ->
  StronglySorted le_timestamp (insert_by_timestamp e l).
Proof.
  induction 1 as [|x l Hs IH Hall]; simpl.
  - repeat constructor.
  - destruct (Z.leb_spec (timestamp (snd e)) (timestamp (snd x))) as [Hle|Hgt].
    + constructor; [constructor; assumption|].
      constructor; [exact Hle|].
      eapply Forall_impl; [|exact Hall].
      unfold le_timestamp. intros; lia.
    + constructor; [exact IH|].
      eapply Permutation_Forall.
      * symmetry. apply insert_by_timestamp_Permutation.
      * constructor; [unfold le_timestamp; lia | exact Hall].
Qed.

Lemma sort_by_timestamp_sorted l : StronglySorted le_timestamp (sort_by_timestamp l).
Proof.
  induction l as [|e l IH]; simpl.
  - constructor.
  - now apply insert_by_timestamp_sorted.
Qed.

Lemma sorted_app_r (l1 l2 : list Entry) :
  StronglySorted le_timestamp (l1 ++ l2) -> StronglySorted le_timestamp l2.
Proof.
  induction l1 as [|x l1 IH]; simpl; auto.
  intros Hs. inversion Hs; auto.
Qed.

Lemma sorted_app_le (l1 l2 : list Entry) :
  StronglySorted le_timestamp (l1 ++ l2) ->
  forall e1 e2, In e1 l1 -> In e2 l2 -> le_timestamp e1 e2.
Proof.
  induction l1 as [|x l1 IH]; simpl; intros Hs e1 e2 H1 H2; [tauto|].
  inversion Hs as [|? ? Hs' Hall]; subst.
  destruct H1 as [<-|H1].
  - rewrite Forall_forall in Hall. apply Hall. apply in_or_app. now right.
  - eapply IH; eauto.
Qed.

Lemma evictedPrefix_is_prefix items : forall sz mx,
  exists kept, items = evictedPrefix items sz mx ++ kept.
Proof.
  induction items as [|e items IH]; intros sz mx; simpl.
  - now exists [].
  - destruct (sz >? mx).
    + destruct (IH (sz - calculateItemSize (fst e) (snd e)) mx) as [kept Hk].
      exists kept. simpl. now rewrite <- Hk.
    + now exists (e :: items).
Qed.

Lemma evictedPrefix_stops items : forall sz mx,
  evictedPrefix items sz mx = items \/
  sz - entriesSize (evictedPrefix items sz mx) <= mx.
Proof.
  induction items as [|e items IH]; intros sz mx; simpl; auto.
  destruct (Z.gtb_spec sz mx) as [Hgt|Hle].
  - destruct (IH (sz - calculateItemSize (fst e) (snd e)) mx) as [-> | Hs].
    + now left.
    + right. simpl. lia.
  - right. simpl. lia.
Qed.

Lemma evictedPrefix_continues items : forall sz mx pre suf,
  evictedPrefix items sz mx = pre ++ suf -> suf <> [] ->
  sz - entriesSize pre > mx.
Proof.
  induction items as [|e items IH]; intros sz mx pre suf; simpl.
  - intros H Hne. symmetry in H. apply app_eq_nil in H. tauto.
  - destruct (Z.gtb_spec sz mx) as [Hgt|Hle].
    + destruct pre as [|p pre]; simpl.
      * intros _ _. lia.
      * intros [= <- H] Hne. specialize (IH _ _ _ _ H Hne). lia.
    + intros H Hne. symmetry in H. apply app_eq_nil in H. tauto.
Qed.

Lemma evictedPrefix_within_cap items sz mx :
  sz <= mx -> evictedPrefix items sz mx = [].
Proof.
  destruct items as [|e items]; simpl; auto.
  intros H. destruct (Z.gtb_spec sz mx); auto. lia.
Qed.

Lemma evictedPrefix_nonempty e items sz mx :
  sz > mx -> evictedPrefix (e :: items) sz mx <> [].
Proof.
  simpl. intros H. destruct (Z.gtb_spec sz mx); [discriminate | lia].
Qed.

(** ** Facts about [deleteAll] *)

Lemma In_deleteAll es : forall m e,
  In e (deleteAll es m) <-> In e m /\ ~ In (fst e) (keys es).
Proof.
  unfold deleteAll.
  induction es as [|x es IH]; intros m e; simpl.
  - tauto.
  - rewrite IH, In_Map_delete. intuition congruence.
Qed.

Lemma Map_get_deleteAll_cases es : forall m k,
  Map_get k (deleteAll es m) = Map_get k m \/ Map_get k (deleteAll es m) = None.
Proof.
  unfold deleteAll.
  induction es as [|x es IH]; intros m k; simpl; auto.
  destruct (IH (Map_delete (fst x) m) k) as [H|H]; auto.
  rewrite H. apply Map_get_delete_cases.
Qed.

Lemma NoDup_deleteAll es : forall m, NoDup (keys m) -> NoDup (keys (deleteAll es m)).
Proof.
  unfold deleteAll.
  induction es as [|x es IH]; intros m H; simpl; auto.
  apply IH. now apply NoDup_Map_delete.
Qed.

Lemma NoDup_keys_app_disjoint (l1 l2 : list Entry) e :
  NoDup (keys (l1 ++ l2)) -> In e l2 -> ~ In (fst e) (keys l1).
Proof.
  unfold keys. rewrite map_app.
  induction l1 as [|x l1 IH]; simpl; intros Hnd H2; [tauto|].
  inversion Hnd as [|? ? Hnotin Hnd']; subst.
  intros [E|H1].
  - apply Hnotin. rewrite E. apply in_or_app. right. now apply in_map.
  - now apply IH.
Qed.

Lemma In_deleteAll_split (evicted kept : list Entry) m :
  NoDup (keys m) -> Permutation (evicted ++ kept) m ->
  forall e, In e (deleteAll evicted m) <-> In e kept.
Proof.
  intros Hnd Hperm e.
  assert (Hnd' : NoDup (keys (evicted ++ kept))).
  { eapply Permutation_NoDup; [|exact Hnd].
    unfold keys. apply Permutation_map. now symmetry. }
  rewrite In_deleteAll. split.
  - intros [HIn Hnot].
    apply (Permutation_in _ (Permutation_sym Hperm)) in HIn.
    apply in_app_or in HIn. destruct HIn as [H|H]; auto.
    exfalso. apply Hnot. now apply in_map.
  - intros HIn. split.
    + apply (Permutation_in _ Hperm). apply in_or_app. now right.
    + eapply NoDup_keys_app_disjoint; eauto.
Qed.

Lemma entriesSize_deleteAll es : forall m,
  NoDup (keys m) -> NoDup (keys es) -> incl es m ->
  entriesSize (deleteAll es m) = entriesSize m - entriesSize es.
Proof.
  unfold deleteAll.
  induction es as [|[k v] es IH]; intros m Hm Hes Hincl; simpl.
  - lia.
  - inversion Hes as [|? ? Hnotin Hes']; subst.
    rewrite IH.
    + rewrite entriesSize_Map_delete by assumption.
      rewrite (In_Map_get k v m Hm) by (apply Hincl; now left). lia.
    + now apply NoDup_Map_delete.
    + assumption.
    + intros e He. apply In_Map_delete. split.
      * apply Hincl. now right.
      * intros E. apply Hnotin. rewrite <- E. now apply in_map.
Qed.

(** ** Facts about the methods *)

Section MethodFacts.

Variable clock : nat -> Z.

(** What [saveCache] appends to the history. *)
Lemma saveCache_saves c :
  saves (saveCache clock c) =
  (if clock (ticks c) - lastSaveTime c <? 1000
   then SaveDropped (clock (ticks c))
   else SaveWritten (clock (ticks c)) (cache c)) :: saves c.
Proof.
  unfold saveCache, Date_now; simpl.
  destruct (clock (ticks c) - lastSaveTime c <? 1000); reflexivity.
Qed.

Lemma saveCache_frame c :
  cache (saveCache clock c) = cache c /\
  currentCacheSize (saveCache clock c) = currentCacheSize c /\
  maxCacheSize (saveCache clock c) = maxCacheSize c /\
  expirationTime (saveCache clock c) = expirationTime c /\
  metrics (saveCache clock c) = metrics c /\
  ticks (saveCache clock c) = S (ticks c).
Proof.
  unfold saveCache, Date_now; simpl.
  destruct (clock (ticks c) - lastSaveTime c <? 1000); simpl; auto 10.
Qed.

Lemma saveCache_cache c : cache (saveCache clock c) = cache c.
Proof. apply saveCache_frame. Qed.

Lemma saveCache_currentCacheSize c :
  currentCacheSize (saveCache clock c) = currentCacheSize c.
Proof. apply saveCache_frame. Qed.

Lemma saveCache_maxCacheSize c : maxCacheSize (saveCache clock c) = maxCacheSize c.
Proof. apply saveCache_frame. Qed.

Lemma saveCache_expirationTime c :
  expirationTime (saveCache clock c) = expirationTime c.
Proof. apply saveCache_frame. Qed.

Lemma saveCache_metrics c : metrics (saveCache clock c) = metrics c.
Proof. apply saveCache_frame. Qed.

Lemma saveCache_ticks c : ticks (saveCache clock c) = S (ticks c).
Proof. apply saveCache_frame. Qed.

(** The loop removes exactly [evictedPrefix] and subtracts its size. *)
Lemma evictLoop_eq items : forall c n,
  let P := evictedPrefix items (currentCacheSize c) (maxCacheSize c) in
  evictLoop items c n =
  (with_currentCacheSize (currentCacheSize c - entriesSize P)
     (with_cache (deleteAll P (cache c)) c),
   n + Z.of_nat (List.length P)).
Proof.
  induction items as [|[key item] items IH]; intros c n; simpl.
  - destruct c; unfold with_currentCacheSize, with_cache; simpl.
    f_equal; [f_equal|]; lia.
  - destruct (currentCacheSize c >? maxCacheSize c) eqn:E.
    + rewrite IH. simpl.
      unfold with_currentCacheSize, with_cache; simpl.
      f_equal; [f_equal|]; lia.
    + destruct c; unfold with_currentCacheSize, with_cache; simpl.
      f_equal; [f_equal|]; lia.
Qed.

(** [checkAndCleanCacheSize] in terms of [evictedPrefix]. *)
Lemma checkAndCleanCacheSize_fields c :
  let P := evictedPrefix (sort_by_timestamp (cache c))
                         (currentCacheSize c) (maxCacheSize c) in
  let c' := checkAndCleanCacheSize clock c in
  cache c' = deleteAll P (cache c) /\
  currentCacheSize c' = currentCacheSize c - entriesSize P /\
  maxCacheSize c' = maxCacheSize c /\
  expirationTime c' = expirationTime c /\
  metrics c' = metrics c /\
  (saves c' = saves c \/ exists ev, saves c' = ev :: saves c).
Proof.
  intros P c'. subst P c'. unfold checkAndCleanCacheSize.
  destruct (Z.leb_spec (currentCacheSize c) (maxCacheSize c)) as [Hle|Hgt].
  - rewrite evictedPrefix_within_cap by assumption. simpl.
    repeat split; auto; lia.
  - rewrite evictLoop_eq.
    set (P := evictedPrefix _ _ _).
    destruct (0 + Z.of_nat (List.length P) >? 0).
    + destruct (saveCache_frame
                  (with_currentCacheSize (currentCacheSize c - entriesSize P)
                     (with_cache (deleteAll P (cache c)) c)))
        as (Hc & Hs & Hm & He & Hme & _).
      rewrite Hc, Hs, Hm, He, Hme, saveCache_saves. simpl.
      repeat split; auto. right. eexists. reflexivity.
    + simpl. repeat split; auto.
Qed.

(** The full account of one run of [checkAndCleanCacheSize]. *)
Lemma checkAndCleanCacheSize_spec c :
  NoDup (keys (cache c)) ->
  let c' := checkAndCleanCacheSize clock c in
  exists evicted kept,
    sort_by_timestamp (cache c) = evicted ++ kept /\
    cache c' = deleteAll evicted (cache c) /\
    (forall e, In e (cache c') <-> In e kept) /\
    currentCacheSize c' = currentCacheSize c - entriesSize evicted /\
    (currentCacheSize c <= maxCacheSize c -> evicted = []) /\
    (forall pre suf, evicted = pre ++ suf -> suf <> [] ->
       currentCacheSize c - entriesSize pre > maxCacheSize c) /\
    (currentCacheSize c' <= maxCacheSize c' \/ cache c' = []).
Proof.
  intros Hnd c'.
  destruct (checkAndCleanCacheSize_fields c) as (Hc & Hs & Hm & _).
  fold c' in Hc, Hs, Hm.
  set (P := evictedPrefix (sort_by_timestamp (cache c))
                          (currentCacheSize c) (maxCacheSize c)) in *.
  destruct (evictedPrefix_is_prefix (sort_by_timestamp (cache c))
              (currentCacheSize c) (maxCacheSize c)) as [kept Hk].
  fold P in Hk.
  assert (HIn : forall e, In e (cache c') <-> In e kept).
  { intros e. rewrite Hc. apply In_deleteAll_split; auto.
    rewrite <- Hk. apply sort_by_timestamp_Permutation. }
  exists P, kept. repeat split; auto.
  - apply HIn.
  - apply HIn.
  - intros Hle. now apply evictedPrefix_within_cap.
  - intros pre suf. apply evictedPrefix_continues.
  - destruct (evictedPrefix_stops (sort_by_timestamp (cache c))
                (currentCacheSize c) (maxCacheSize c)) as [Hall|Hstop].
    + right. fold P in Hall. rewrite Hall in Hk.
      assert (kept = []) as ->.
      { apply (f_equal (@List.length Entry)) in Hk.
        rewrite length_app in Hk. destruct kept; auto. simpl in Hk. lia. }
      destruct (cache c') as [|e m]; auto.
      exfalso. apply (HIn e). now left.
    + left. fold P in Hstop. rewrite Hs, Hm. exact Hstop.
Qed.

Lemma checkAndCleanCacheSize_cache_cases c k :
  Map_get k (cache (checkAndCleanCacheSize clock c)) = Map_get k (cache c) \/
  Map_get k (cache (checkAndCleanCacheSize clock c)) = None.
Proof.
  destruct (checkAndCleanCacheSize_fields c) as (Hc & _).
  rewrite Hc. apply Map_get_deleteAll_cases.
Qed.

Lemma checkAndCleanCacheSize_within_cap c :
  currentCacheSize c <= maxCacheSize c -> checkAndCleanCacheSize clock c = c.
Proof.
  intros H. unfold checkAndCleanCacheSize.
  destruct (Z.leb_spec (currentCacheSize c) (maxCacheSize c)); [reflexivity | lia].
Qed.

Lemma calculateItemSize_estimate key item :
  calculateItemSize key item =
  byteSizeEstimate key (result item) (from item) (to item).
Proof. unfold calculateItemSize, byteSizeEstimate. lia. Qed.

(** [set] is: store the entry and account for it, then evict, then save. *)
Lemma set_unfold text value sourceTag targetTag c :
  set clock text value sourceTag targetTag c =
  saveCache clock
    (checkAndCleanCacheSize clock (set_stored clock text value sourceTag targetTag c)).
Proof.
  unfold set, set_stored, Date_now, Map_has. simpl.
  do 2 f_equal.
  destruct (Map_get (generateKey text sourceTag targetTag) (cache c)) as [old|];
    simpl; unfold with_cache, with_currentCacheSize, with_ticks; simpl;
    f_equal; rewrite ?calculateItemSize_estimate; simpl; lia.
Qed.

Lemma set_stored_fields text value sourceTag targetTag c :
  let key := generateKey text sourceTag targetTag in
  let st := set_stored clock text value sourceTag targetTag c in
  cache st = Map_set key (mkItem value (clock (ticks c)) sourceTag targetTag) (cache c) /\
  currentCacheSize st =
    currentCacheSize c
    - match Map_get key (cache c) with
      | Some old => calculateItemSize key old
      | None => 0
      end
    + calculateItemSize key (mkItem value (clock (ticks c)) sourceTag targetTag) /\
  maxCacheSize st = maxCacheSize c /\
  expirationTime st = expirationTime c /\
  metrics st = metrics c /\
  saves st = saves c /\
  ticks st = S (ticks c).
Proof.
  simpl. unfold set_stored; simpl. repeat split; auto.
  destruct (Map_get (generateKey text sourceTag targetTag) (cache c));
    rewrite ?calculateItemSize_estimate; reflexivity.
Qed.

(** The three paths of [get]. *)
Lemma get_miss text sourceTag targetTag c :
  Map_get (generateKey text sourceTag targetTag) (cache c) = None ->
  get clock text sourceTag targetTag c =
  (None,
   with_metrics (mkMetrics (hits (metrics c)) (misses (metrics c) + 1)
                           (totalResponseTime (metrics c)) (responses (metrics c)))
     (with_ticks (S (ticks c)) c)).
Proof.
  intros H. unfold get, Date_now. simpl. now rewrite H.
Qed.

Lemma get_expired text sourceTag targetTag c item :
  Map_get (generateKey text sourceTag targetTag) (cache c) = Some item ->
  clock (S (ticks c)) - timestamp item > expirationTime c ->
  get clock text sourceTag targetTag c =
  (None,
   saveCache clock
     (with_cache (Map_delete (generateKey text sourceTag targetTag) (cache c))
        (with_ticks (S (S (ticks c))) c))).
Proof.
  intros H Hexp. unfold get, Date_now. simpl. rewrite H. simpl.
  destruct (Z.gtb_spec (clock (S (ticks c)) - timestamp item) (expirationTime c));
    [reflexivity | lia].
Qed.

Lemma get_hit text sourceTag targetTag c item :
  Map_get (generateKey text sourceTag targetTag) (cache c) = Some item ->
  clock (S (ticks c)) - timestamp item <= expirationTime c ->
  get clock text sourceTag targetTag c =
  (Some (result item),
   with_metrics
     (mkMetrics (hits (metrics c) + 1) (misses (metrics c))
                (totalResponseTime (metrics c)
                 + (clock (S (S (ticks c))) - clock (ticks c)))
                (responses (metrics c) + 1))
     (with_ticks (S (S (S (ticks c)))) c)).
Proof.
  intros H Hexp. unfold get, Date_now. simpl. rewrite H. simpl.
  destruct (Z.gtb_spec (clock (S (ticks c)) - timestamp item) (expirationTime c));
    [lia | reflexivity].
Qed.

(** Whatever [set] leaves under the key it wrote is the entry it wrote. *)
Lemma set_cache_at_key text value sourceTag targetTag c :
  let key := generateKey text sourceTag targetTag in
  let c' := set clock text value sourceTag targetTag c in
  Map_get key (cache c') = Some (mkItem value (clock (ticks c)) sourceTag targetTag) \/
  Map_get key (cache c') = None.
Proof.
  simpl. rewrite set_unfold, saveCache_cache.
  destruct (checkAndCleanCacheSize_cache_cases
              (set_stored clock text value sourceTag targetTag c)
              (generateKey text sourceTag targetTag)) as [H|H]; rewrite H; auto.
  left. unfold set_stored; simpl. apply Map_get_set_eq.
Qed.

Lemma set_expirationTime text value sourceTag targetTag c :
  expirationTime (set clock text value sourceTag targetTag c) = expirationTime c.
Proof.
  rewrite set_unfold, saveCache_expirationTime.
  destruct (checkAndCleanCacheSize_fields
              (set_stored clock text value sourceTag targetTag c))
    as (_ & _ & _ & He & _).
  rewrite He. reflexivity.
Qed.

(** A [get] that follows a [set] of the same triple returns the value set,
    as long as the entry is still there and its age is within the window. *)
Lemma set_get_within_window text value sourceTag targetTag c :
  let c' := set clock text value sourceTag targetTag c in
  clock (S (ticks c')) - clock (ticks c) <= expirationTime c ->
  Map_has (generateKey text sourceTag targetTag) (cache c') = true ->
  fst (get clock text sourceTag targetTag c') = Some value.
Proof.
  intros c' Hage Hhas.
  destruct (set_cache_at_key text value sourceTag targetTag c) as [H|H];
    fold c' in H.
  - rewrite (get_hit _ _ _ _ _ H); [reflexivity|].
    unfold c'. rewrite set_expirationTime. exact Hage.
  - unfold Map_has in Hhas. rewrite H in Hhas. discriminate.
Qed.

(** What [get] returns depends only on the entry under the key, the
    expiration window and the position of the clock. *)
Lemma get_result_congr text sourceTag targetTag c1 c2 :
  Map_get (generateKey text sourceTag targetTag) (cache c1) =
  Map_get (generateKey text sourceTag targetTag) (cache c2) ->
  expirationTime c1 = expirationTime c2 ->
  ticks c1 = ticks c2 ->
  fst (get clock text sourceTag targetTag c1) =
  fst (get clock text sourceTag targetTag c2).
Proof.
  intros Hk He Ht. unfold get, Date_now. simpl. rewrite Hk, He, Ht.
  destruct (Map_get (generateKey text sourceTag targetTag) (cache c2)) as [item|];
    [|reflexivity].
  destruct (clock (S (ticks c2)) - timestamp item >? expirationTime c2);
    reflexivity.
Qed.

(** [set] leaves every other key alone or evicts it. *)
Lemma set_other_key text value sourceTag targetTag c k :
  k <> generateKey text sourceTag targetTag ->
  let c' := set clock text value sourceTag targetTag c in
  Map_get k (cache c') = Map_get k (cache c) \/ Map_get k (cache c') = None.
Proof.
  intros Hk c'. unfold c'. rewrite set_unfold, saveCache_cache.
  destruct (checkAndCleanCacheSize_cache_cases
              (set_stored clock text value sourceTag targetTag c) k) as [H|H];
    rewrite H; auto.
  left. unfold set_stored; simpl. apply Map_get_set_neq. congruence.
Qed.

Lemma set_other_key_within_cap text value sourceTag targetTag c k :
  k <> generateKey text sourceTag targetTag ->
  currentCacheSize (set_stored clock text value sourceTag targetTag c)
    <= maxCacheSize c ->
  Map_get k (cache (set clock text value sourceTag targetTag c)) =
  Map_get k (cache c).
Proof.
  intros Hk Hcap. rewrite set_unfold, saveCache_cache.
  rewrite checkAndCleanCacheSize_within_cap by exact Hcap.
  unfold set_stored; simpl. apply Map_get_set_neq. congruence.
Qed.

(** *** The counters *)

Lemma set_metrics text value sourceTag targetTag c :
  metrics (set clock text value sourceTag targetTag c) = metrics c.
Proof.
  rewrite set_unfold, saveCache_metrics.
  destruct (checkAndCleanCacheSize_fields
              (set_stored clock text value sourceTag targetTag c))
    as (_ & _ & _ & _ & Hm & _).
  rewrite Hm. reflexivity.
Qed.

Lemma clear_metrics c : metrics (clear clock c) = metrics c.
Proof. unfold clear. now rewrite saveCache_metrics. Qed.

Lemma loadCache_metrics c : metrics (loadCache c) = metrics c.
Proof.
  unfold loadCache. destruct (globalState c) as [cachedData|]; [|reflexivity].
  change (metrics c) with (metrics (with_currentCacheSize 0 c)).
  generalize (with_currentCacheSize 0 c). clear c.
  induction cachedData as [|[key item] l IH]; intros c; simpl; [reflexivity|].
  rewrite IH. reflexivity.
Qed.

Lemma cleanExpiredCache_metrics c : metrics (cleanExpiredCache clock c) = metrics c.
Proof.
  unfold cleanExpiredCache, Date_now.
  set (now := clock (ticks c)).
  set (f := fun (st : TranslationCache * Z) (e : Entry) => _).
  assert (H : forall l st, metrics (fst (fold_left f l st)) = metrics (fst st)).
  { induction l as [|[key item] l IH]; intros [c1 n]; simpl; [reflexivity|].
    rewrite IH.
    destruct (now - timestamp item >? expirationTime c1); reflexivity. }
  specialize (H (cache (with_ticks (S (ticks c)) c)) (with_ticks (S (ticks c)) c, 0)).
  destruct (fold_left f _ _) as [c1 n]. simpl in H.
  destruct (n >? 0); [rewrite saveCache_metrics|]; exact H.
Qed.

Lemma constructor_metrics stored ticks0 days mb :
  metrics (constructor clock stored ticks0 days mb) = mkMetrics 0 0 0 0.
Proof.
  unfold constructor. now rewrite cleanExpiredCache_metrics, loadCache_metrics.
Qed.

(** What one [get] does to the counters, by outcome. *)
Lemma get_metrics text sourceTag targetTag c :
  let m := metrics c in
  metrics (snd (get clock text sourceTag targetTag c)) =
  match lookupOutcome clock text sourceTag targetTag c with
  | Hit latency =>
      mkMetrics (hits m + 1) (misses m) (totalResponseTime m + latency)
                (responses m + 1)
  | Miss => mkMetrics (hits m) (misses m + 1) (totalResponseTime m) (responses m)
  | Expired => m
  end.
Proof.
  unfold lookupOutcome. simpl.
  destruct (Map_get (generateKey text sourceTag targetTag) (cache c))
    as [item|] eqn:Hk.
  - destruct (Z.gtb_spec (clock (S (ticks c)) - timestamp item) (expirationTime c)).
    + rewrite (get_expired _ _ _ _ _ Hk) by lia. simpl.
      now rewrite saveCache_metrics.
    + now rewrite (get_hit _ _ _ _ _ Hk) by lia.
  - now rewrite (get_miss _ _ _ _ Hk).
Qed.

(** [get] returns a value exactly when its outcome is a hit. *)
Lemma get_returns_iff_hit text sourceTag targetTag c :
  fst (get clock text sourceTag targetTag c) <> None <->
  exists latency, lookupOutcome clock text sourceTag targetTag c = Hit latency.
Proof.
  unfold lookupOutcome.
  destruct (Map_get (generateKey text sourceTag targetTag) (cache c))
    as [item|] eqn:Hk.
  - destruct (Z.gtb_spec (clock (S (ticks c)) - timestamp item) (expirationTime c)).
    + rewrite (get_expired _ _ _ _ _ Hk) by lia. simpl.
      split; [tauto | intros [l Hl]; discriminate].
    + rewrite (get_hit _ _ _ _ _ Hk) by lia. simpl.
      split; [eauto | discriminate].
  - rewrite (get_miss _ _ _ _ Hk). simpl.
    split; [tauto | intros [l Hl]; discriminate].
Qed.

Lemma hitLatencies_app l1 l2 :
  hitLatencies (l1 ++ l2) = hitLatencies l1 ++ hitLatencies l2.
Proof. unfold hitLatencies. apply flat_map_app. Qed.

Lemma missCount_app l1 l2 : missCount (l1 ++ l2) = missCount l1 + missCount l2.
Proof.
  unfold missCount. rewrite filter_app, length_app. lia.
Qed.

Lemma sumZ_app l1 l2 : sumZ (l1 ++ l2) = sumZ l1 + sumZ l2.
Proof.
  induction l1 as [|x l1 IH]; simpl; [reflexivity | rewrite IH; lia].
Qed.

(** The counters after a run: hits and responses grow by the number of hits,
    misses by the number of misses, the total by the hit latencies. *)
Lemma exec_metrics ops : forall c,
  let outs := lookups clock ops c in
  let m := metrics c in
  metrics (exec clock ops c) =
  mkMetrics (hits m + Z.of_nat (List.length (hitLatencies outs)))
            (misses m + missCount outs)
            (totalResponseTime m + sumZ (hitLatencies outs))
            (responses m + Z.of_nat (List.length (hitLatencies outs))).
Proof.
  induction ops as [|o ops IH]; intros c; simpl.
  - destruct (metrics c); simpl. f_equal; unfold missCount; simpl; lia.
  - unfold exec in *; simpl. rewrite IH.
    rewrite hitLatencies_app, missCount_app, sumZ_app, length_app.
    destruct o as [text sourceTag targetTag|text value sourceTag targetTag|];
      cbn [apply_op].
    + rewrite get_metrics.
      destruct (lookupOutcome clock text sourceTag targetTag c);
        unfold missCount; cbn -[Z.add Z.of_nat]; f_equal; lia.
    + rewrite set_metrics. unfold missCount; cbn -[Z.add Z.of_nat]; f_equal; lia.
    + rewrite clear_metrics. unfold missCount; cbn -[Z.add Z.of_nat]; f_equal; lia.
Qed.

(** *** Unique keys and the accounting invariant *)

Lemma get_cache_cases text sourceTag targetTag c :
  let c' := snd (get clock text sourceTag targetTag c) in
  (cache c' = cache c /\ currentCacheSize c' = currentCacheSize c /\
   lookupOutcome clock text sourceTag targetTag c <> Expired) \/
  (cache c' = Map_delete (generateKey text sourceTag targetTag) (cache c) /\
   currentCacheSize c' = currentCacheSize c /\
   lookupOutcome clock text sourceTag targetTag c = Expired).
Proof.
  unfold lookupOutcome. simpl.
  destruct (Map_get (generateKey text sourceTag targetTag) (cache c))
    as [item|] eqn:Hk.
  - destruct (Z.gtb_spec (clock (S (ticks c)) - timestamp item) (expirationTime c)).
    + right. rewrite (get_expired _ _ _ _ _ Hk) by lia. simpl.
      rewrite saveCache_cache, saveCache_currentCacheSize. auto.
    + left. rewrite (get_hit _ _ _ _ _ Hk) by lia. simpl.
      repeat split; auto; discriminate.
  - left. rewrite (get_miss _ _ _ _ Hk). simpl.
    repeat split; auto; discriminate.
Qed.

Lemma set_cache text value sourceTag targetTag c :
  let stored := set_stored clock text value sourceTag targetTag c in
  let P := evictedPrefix (sort_by_timestamp (cache stored))
                         (currentCacheSize stored) (maxCacheSize stored) in
  cache (set clock text value sourceTag targetTag c) = deleteAll P (cache stored) /\
  currentCacheSize (set clock text value sourceTag targetTag c) =
    currentCacheSize stored - entriesSize P.
Proof.
  simpl. rewrite set_unfold, saveCache_cache, saveCache_currentCacheSize.
  destruct (checkAndCleanCacheSize_fields
              (set_stored clock text value sourceTag targetTag c))
    as (Hc & Hs & _).
  auto.
Qed.

Lemma loadCache_NoDup c :
  NoDup (keys (cache c)) -> NoDup (keys (cache (loadCache c))).
Proof.
  unfold loadCache. destruct (globalState c) as [cachedData|]; auto.
  change (cache c) with (cache (with_currentCacheSize 0 c)).
  generalize (with_currentCacheSize 0 c). clear c.
  induction cachedData as [|[key item] l IH]; intros c H; simpl; auto.
  apply IH. simpl. now apply NoDup_Map_set.
Qed.

Lemma cleanExpiredCache_NoDup c :
  NoDup (keys (cache c)) -> NoDup (keys (cache (cleanExpiredCache clock c))).
Proof.
  intros Hnd. unfold cleanExpiredCache, Date_now.
  set (now := clock (ticks c)).
  set (f := fun (st : TranslationCache * Z) (e : Entry) => _).
  assert (H : forall l st, NoDup (keys (cache (fst st))) ->
                           NoDup (keys (cache (fst (fold_left f l st))))).
  { induction l as [|[key item] l IH]; intros [c1 n] H1; simpl; auto.
    apply IH.
    destruct (now - timestamp item >? expirationTime c1); simpl; auto.
    now apply NoDup_Map_delete. }
  specialize (H (cache (with_ticks (S (ticks c)) c))
                (with_ticks (S (ticks c)) c, 0) Hnd).
  destruct (fold_left f _ _) as [c1 n]. simpl in H.
  destruct (n >? 0); [rewrite saveCache_cache|]; exact H.
Qed.

(** Every store the constructor builds has unique keys, and the three
    mutators keep them unique. *)
Lemma constructor_NoDup stored ticks0 days mb :
  NoDup (keys (cache (constructor clock stored ticks0 days mb))).
Proof.
  unfold constructor. apply cleanExpiredCache_NoDup, loadCache_NoDup.
  simpl. constructor.
Qed.

Lemma apply_op_NoDup o c :
  NoDup (keys (cache c)) -> NoDup (keys (cache (apply_op clock o c))).
Proof.
  intros Hnd.
  destruct o as [text sourceTag targetTag|text value sourceTag targetTag|]; simpl.
  - destruct (get_cache_cases text sourceTag targetTag c)
      as [(Hc & _)|(Hc & _)]; rewrite Hc; auto.
    now apply NoDup_Map_delete.
  - destruct (set_cache text value sourceTag targetTag c) as [Hc _].
    rewrite Hc. apply NoDup_deleteAll. unfold set_stored; simpl.
    now apply NoDup_Map_set.
  - unfold clear. rewrite saveCache_cache. simpl. constructor.
Qed.

Lemma exec_NoDup ops : forall c,
  NoDup (keys (cache c)) -> NoDup (keys (cache (exec clock ops c))).
Proof.
  unfold exec.
  induction ops as [|o ops IH]; intros c H; simpl; auto.
  apply IH. now apply apply_op_NoDup.
Qed.

(** [set] and [clear] keep the accounted size equal to the sum of the
    estimates, and so does a [get] that does not find an expired entry. *)
Lemma set_accounted text value sourceTag targetTag c :
  NoDup (keys (cache c)) -> accounted c ->
  accounted (set clock text value sourceTag targetTag c).
Proof.
  unfold accounted. intros Hnd Hacc.
  destruct (set_cache text value sourceTag targetTag c) as [Hc Hs].
  rewrite Hc, Hs.
  set (stored := set_stored clock text value sourceTag targetTag c) in *.
  assert (Hnd' : NoDup (keys (cache stored)))
    by (unfold stored, set_stored; simpl; now apply NoDup_Map_set).
  assert (Hst : currentCacheSize stored = entriesSize (cache stored)).
  { destruct (set_stored_fields text value sourceTag targetTag c) as (H1 & H2 & _).
    fold stored in H1, H2. rewrite H1, H2, entriesSize_Map_set, Hacc. reflexivity. }
  destruct (evictedPrefix_is_prefix (sort_by_timestamp (cache stored))
              (currentCacheSize stored) (maxCacheSize stored)) as [kept Hk].
  set (P := evictedPrefix _ _ _) in *.
  assert (Hperm : Permutation (P ++ kept) (cache stored))
    by (rewrite <- Hk; apply sort_by_timestamp_Permutation).
  rewrite entriesSize_deleteAll; auto.
  - lia.
  - assert (Hnd2 : NoDup (keys (P ++ kept))).
    { eapply Permutation_NoDup; [|exact Hnd'].
      unfold keys. apply Permutation_map. now symmetry. }
    unfold keys in Hnd2. rewrite map_app in Hnd2.
    now apply NoDup_app_remove_r in Hnd2.
  - intros e He. apply (Permutation_in _ Hperm). apply in_or_app. now left.
Qed.

Lemma clear_accounted c : accounted (clear clock c).
Proof.
  unfold accounted, clear.
  now rewrite saveCache_cache, saveCache_currentCacheSize.
Qed.

Lemma get_accounted_unless_expired text sourceTag targetTag c :
  lookupOutcome clock text sourceTag targetTag c <> Expired ->
  accounted c -> accounted (snd (get clock text sourceTag targetTag c)).
Proof.
  unfold accounted. intros Hne Hacc.
  destruct (get_cache_cases text sourceTag targetTag c)
    as [(Hc & Hs & _)|(_ & _ & He)]; [|contradiction].
  now rewrite Hc, Hs.
Qed.

(** *** The debounce guard *)

Lemma saveCache_tracks t0 c :
  lastSaveTime_tracks t0 c -> lastSaveTime_tracks t0 (saveCache clock c).
Proof.
  unfold lastSaveTime_tracks. intros H.
  rewrite saveCache_saves. unfold saveCache, Date_now; simpl.
  destruct (clock (ticks c) - lastSaveTime c <? 1000); simpl; auto.
Qed.

Lemma checkAndCleanCacheSize_tracks t0 c :
  lastSaveTime_tracks t0 c ->
  lastSaveTime_tracks t0 (checkAndCleanCacheSize clock c).
Proof.
  intros H. unfold checkAndCleanCacheSize.
  destruct (currentCacheSize c <=? maxCacheSize c); auto.
  rewrite evictLoop_eq.
  destruct (0 + Z.of_nat (List.length _) >? 0); [apply saveCache_tracks|]; exact H.
Qed.

Lemma set_tracks t0 text value sourceTag targetTag c :
  lastSaveTime_tracks t0 c ->
  lastSaveTime_tracks t0 (set clock text value sourceTag targetTag c).
Proof.
  intros H. rewrite set_unfold.
  apply saveCache_tracks, checkAndCleanCacheSize_tracks. exact H.
Qed.

Lemma get_tracks t0 text sourceTag targetTag c :
  lastSaveTime_tracks t0 c ->
  lastSaveTime_tracks t0 (snd (get clock text sourceTag targetTag c)).
Proof.
  intros H.
  destruct (Map_get (generateKey text sourceTag targetTag) (cache c))
    as [item|] eqn:Hk.
  - destruct (Z.gtb_spec (clock (S (ticks c)) - timestamp item) (expirationTime c)).
    + rewrite (get_expired _ _ _ _ _ Hk) by lia. simpl.
      apply saveCache_tracks. exact H.
    + rewrite (get_hit _ _ _ _ _ Hk) by lia. exact H.
  - rewrite (get_miss _ _ _ _ Hk). exact H.
Qed.

Lemma clear_tracks t0 c :
  lastSaveTime_tracks t0 c -> lastSaveTime_tracks t0 (clear clock c).
Proof.
  intros H. unfold clear. apply saveCache_tracks. exact H.
Qed.

Lemma loadCache_tracks t0 c :
  lastSaveTime_tracks t0 c -> lastSaveTime_tracks t0 (loadCache c).
Proof.
  unfold loadCache. destruct (globalState c) as [cachedData|]; auto.
  intros H.
  assert (H0 : lastSaveTime_tracks t0 (with_currentCacheSize 0 c)) by exact H.
  revert H0. generalize (with_currentCacheSize 0 c). clear.
  induction cachedData as [|[key item] l IH]; intros c H; simpl; auto.
Qed.

Lemma cleanExpiredCache_tracks t0 c :
  lastSaveTime_tracks t0 c -> lastSaveTime_tracks t0 (cleanExpiredCache clock c).
Proof.
  intros Hc. unfold cleanExpiredCache, Date_now.
  set (now := clock (ticks c)).
  set (f := fun (st : TranslationCache * Z) (e : Entry) => _).
  assert (H : forall l st, lastSaveTime_tracks t0 (fst st) ->
                           lastSaveTime_tracks t0 (fst (fold_left f l st))).
  { induction l as [|[key item] l IH]; intros [c1 n] H1; simpl; auto.
    apply IH.
    destruct (now - timestamp item >? expirationTime c1); simpl; auto. }
  specialize (H (cache (with_ticks (S (ticks c)) c))
                (with_ticks (S (ticks c)) c, 0) Hc).
  destruct (fold_left f _ _) as [c1 n]. simpl in H.
  destruct (n >? 0); [apply saveCache_tracks|]; exact H.
Qed.

Lemma constructor_tracks stored ticks0 days mb :
  lastSaveTime_tracks (clock ticks0) (constructor clock stored ticks0 days mb).
Proof.
  unfold constructor. apply cleanExpiredCache_tracks, loadCache_tracks.
  reflexivity.
Qed.

Lemma exec_tracks t0 ops : forall c,
  lastSaveTime_tracks t0 c -> lastSaveTime_tracks t0 (exec clock ops c).
Proof.
  unfold exec.
  induction ops as [|o ops IH]; intros c H; simpl; auto.
  apply IH. destruct o; simpl.
  - now apply get_tracks.
  - now apply set_tracks.
  - now apply clear_tracks.
Qed.

(** In every state an instance can reach, [saveCache] returns without
    writing exactly when the most recent write, or the creation of the
    instance when nothing has been written, is less than 1000 ms old. *)
Lemma saveCache_drops_iff stored ticks0 days mb ops :
  let c := exec clock ops (constructor clock stored ticks0 days mb) in
  let now := clock (ticks c) in
  let last :=
    match lastWrite (saves c) with Some t => t | None => clock ticks0 end in
  saves (saveCache clock c) = SaveDropped now :: saves c <-> now - last < 1000.
Proof.
  intros c now last.
  assert (H : lastSaveTime_tracks (clock ticks0) c)
    by (apply exec_tracks, constructor_tracks).
  unfold lastSaveTime_tracks in H. fold last in H.
  rewrite saveCache_saves. fold now. rewrite H.
  destruct (Z.ltb_spec (now - last) 1000); split; intros H'; auto; try lia.
  discriminate.
Qed.

End MethodFacts.

(** * Properties of the cache *)

Section Properties.

Variable clock : nat -> Z.

(** C4.  After [set] has stored its entry, the entries it evicts are an
    initial segment [evicted] of the stored entries arranged by ascending
    [timestamp]: nothing is evicted when the accounted size is within the
    cap, each eviction happens only while the accounted size still exceeds
    the cap, and eviction ends with the accounted size at most the cap or
    with an empty store.  When an entry is evicted every entry still in the
    store is at least as recent, so no entry with a strictly larger
    [timestamp] is evicted while one with a strictly smaller [timestamp]
    remains. *)
Theorem set_evicts_oldest_first text value sourceTag targetTag c :
  NoDup (keys (cache c)) ->
  let stored := set_stored clock text value sourceTag targetTag c in
  let c' := set clock text value sourceTag targetTag c in
  exists evicted kept,
    sort_by_timestamp (cache stored) = evicted ++ kept /\
    StronglySorted le_timestamp (evicted ++ kept) /\
    cache c' = deleteAll evicted (cache stored) /\
    (forall e, In e (cache c') <-> In e kept) /\
    currentCacheSize c' = currentCacheSize stored - entriesSize evicted /\
    (currentCacheSize stored <= maxCacheSize c -> evicted = []) /\
    (forall pre suf, evicted = pre ++ suf -> suf <> [] ->
       currentCacheSize stored - entriesSize pre > maxCacheSize c) /\
    (currentCacheSize c' <= maxCacheSize c \/ cache c' = []) /\
    (forall pre e suf, evicted = pre ++ e :: suf ->
       forall e', In e' (suf ++ kept) -> timestamp (snd e) <= timestamp (snd e')) /\
    (forall e1 e2, In e1 evicted -> In e2 (cache c') ->
       ~ timestamp (snd e2) < timestamp (snd e1)).
Proof.
  intros Hnd stored c'.
  assert (Hnd' : NoDup (keys (cache stored))).
  { unfold stored, set_stored; simpl. now apply NoDup_Map_set. }
  destruct (checkAndCleanCacheSize_spec clock stored Hnd')
    as (evicted & kept & Hsort & Hcache & HIn & Hsize & Hcap & Hcont & Hstop).
  destruct (checkAndCleanCacheSize_fields clock stored) as (_ & _ & Hmax & _).
  assert (Hmaxs : maxCacheSize stored = maxCacheSize c) by reflexivity.
  assert (Hsorted : StronglySorted le_timestamp (evicted ++ kept)).
  { rewrite <- Hsort. apply sort_by_timestamp_sorted. }
  assert (Hc' : cache c' = cache (checkAndCleanCacheSize clock stored)).
  { unfold c', stored. now rewrite set_unfold, saveCache_cache. }
  assert (Hs' : currentCacheSize c' =
                currentCacheSize (checkAndCleanCacheSize clock stored)).
  { unfold c', stored. now rewrite set_unfold, saveCache_currentCacheSize. }
  exists evicted, kept.
  rewrite Hc', Hs'. rewrite Hmax, Hmaxs in Hstop. rewrite Hmaxs in Hcap, Hcont.
  repeat split; auto; try apply HIn.
  - intros pre e suf Hev e' He'.
    rewrite Hev, <- app_assoc in Hsorted. simpl in Hsorted.
    apply sorted_app_r in Hsorted.
    inversion Hsorted as [|? ? _ Hall]; subst.
    rewrite Forall_forall in Hall. exact (Hall e' He').
  - intros e1 e2 H1 H2 Hlt.
    apply HIn in H2.
    pose proof (sorted_app_le _ _ Hsorted e1 e2 H1 H2) as Hle.
    unfold le_timestamp in Hle. lia.
Qed.

(** C5.  [set] subtracts the old size estimate when the key exists, puts a
    fresh entry stamped with the current time in place of any prior one,
    adds the new entry's estimate
    [2 * (len key + len value + len sourceTag + len targetTag) + 8],
    then always runs the eviction and always requests a save. *)
Theorem set_steps text value sourceTag targetTag c :
  let key := generateKey text sourceTag targetTag in
  let now := clock (ticks c) in
  let stored := set_stored clock text value sourceTag targetTag c in
  let c' := set clock text value sourceTag targetTag c in
  currentCacheSize stored =
    currentCacheSize c
    - match Map_get key (cache c) with
      | Some old => calculateItemSize key old
      | None => 0
      end
    + (2 * (len key + len value + len sourceTag + len targetTag) + 8) /\
  Map_get key (cache stored) = Some (mkItem value now sourceTag targetTag) /\
  (forall k, k <> key -> Map_get k (cache stored) = Map_get k (cache c)) /\
  c' = saveCache clock (checkAndCleanCacheSize clock stored) /\
  exists ev, saves c' = ev :: saves (checkAndCleanCacheSize clock stored).
Proof.
  intros key now stored c'.
  destruct (set_stored_fields clock text value sourceTag targetTag c)
    as (Hc & Hs & _).
  fold key stored in Hc, Hs.
  repeat split.
  - rewrite Hs. rewrite (calculateItemSize_estimate key (mkItem _ _ _ _)).
    reflexivity.
  - rewrite Hc. apply Map_get_set_eq.
  - intros k Hk. rewrite Hc. apply Map_get_set_neq. congruence.
  - apply set_unfold.
  - unfold c'. rewrite set_unfold, saveCache_saves. eexists. reflexivity.
Qed.

(** C6.  With a non-negative expiration window, a [get] that follows a
    [set] of the same triple with no time elapsed in between returns the
    value set, provided the eviction run by [set] left the entry in the
    store. *)
Theorem set_then_get_returns_value text value sourceTag targetTag c :
  let c' := set clock text value sourceTag targetTag c in
  0 <= expirationTime c ->
  clock (S (ticks c')) = clock (ticks c) ->
  Map_has (generateKey text sourceTag targetTag) (cache c') = true ->
  fst (get clock text sourceTag targetTag c') = Some value.
Proof.
  intros c' Hexp Hnow Hhas.
  apply set_get_within_window; auto.
  fold c'. lia.
Qed.

(** C9.  After [clear] the store has no entries and the accounted size is
    0: [size()] is 0, the size reported by [getMetrics] is 0, a following
    [get] returns nothing whatever the key, and a save has been
    requested. *)
Theorem clear_empties_store c :
  let c' := clear clock c in
  cache c' = [] /\
  currentCacheSize c' = 0 /\
  size c' = 0 /\
  Report.size (getMetrics c') = 0 /\
  (forall text sourceTag targetTag,
     fst (get clock text sourceTag targetTag c') = None) /\
  exists ev, saves c' = ev :: saves c.
Proof.
  intros c'.
  assert (Hc : cache c' = []) by (unfold c', clear; now rewrite saveCache_cache).
  assert (Hs : currentCacheSize c' = 0)
    by (unfold c', clear; now rewrite saveCache_currentCacheSize).
  repeat split; auto.
  - unfold size. now rewrite Hc.
  - intros text sourceTag targetTag. rewrite get_miss; [reflexivity|].
    now rewrite Hc.
  - unfold c', clear. rewrite saveCache_saves. eexists. reflexivity.
Qed.

(** C10.  [clear] leaves the four counters of [metrics] as they were, so
    the hit rate and the average response time that [getMetrics] reports
    are the same before and after. *)
Theorem clear_keeps_metrics c :
  let c' := clear clock c in
  metrics c' = metrics c /\
  Report.hitRate (getMetrics c') = Report.hitRate (getMetrics c) /\
  Report.avgResponseTime (getMetrics c') = Report.avgResponseTime (getMetrics c).
Proof.
  intros c'.
  assert (Hm : metrics c' = metrics c)
    by (unfold c', clear; now rewrite saveCache_metrics).
  unfold getMetrics; simpl. rewrite Hm. auto.
Qed.

(** C7 (amended).  Two distinct triples whose source and target tags
    contain no [|] have distinct keys.  A [set] under one of them leaves the
    entry stored for the other as it was, or evicts it; when the [set] stays
    within the size cap the entry is as it was, and [get] for the other
    triple returns what it would have returned, at the same reading of the
    clock, had the [set] not happened. *)
Theorem distinct_triples_distinct_keys t1 f1 o1 t2 f2 o2 value c :
  has_separator f1 = false -> has_separator o1 = false ->
  has_separator f2 = false -> has_separator o2 = false ->
  (t1, f1, o1) <> (t2, f2, o2) ->
  let c' := set clock t1 value f1 o1 c in
  generateKey t1 f1 o1 <> generateKey t2 f2 o2 /\
  (Map_get (generateKey t2 f2 o2) (cache c') =
     Map_get (generateKey t2 f2 o2) (cache c) \/
   Map_get (generateKey t2 f2 o2) (cache c') = None) /\
  (currentCacheSize (set_stored clock t1 value f1 o1 c) <= maxCacheSize c ->
   Map_get (generateKey t2 f2 o2) (cache c') =
     Map_get (generateKey t2 f2 o2) (cache c) /\
   fst (get clock t2 f2 o2 c') =
     fst (get clock t2 f2 o2 (with_ticks (ticks c') c))).
Proof.
  intros Hf1 Ho1 Hf2 Ho2 Hne c'.
  assert (Hk : generateKey t2 f2 o2 <> generateKey t1 f1 o1).
  { intros E. symmetry in E.
    destruct (generateKey_injective _ _ _ _ _ _ Hf1 Ho1 Hf2 Ho2 E)
      as (-> & -> & ->).
    now apply Hne. }
  split; [congruence|]. split.
  - now apply set_other_key.
  - intros Hcap.
    assert (Hsame : Map_get (generateKey t2 f2 o2) (cache c') =
                    Map_get (generateKey t2 f2 o2) (cache c))
      by now apply set_other_key_within_cap.
    split; [exact Hsame|].
    apply get_result_congr; simpl; auto.
    apply set_expirationTime.
Qed.

(** C8.  From a fresh instance, after any run of calls, the counters hold
    the number of hits, the number of misses, the sum of the hit latencies
    and again the number of hits: a miss adds one to [misses] and nothing
    else.  [getMetrics] reports [hits / (hits + misses) * 100], or 0 without
    observations, and [totalResponseTime / responses], or 0 without hits.
    After three hits and one miss the hit rate is 75 and the average
    response time is the sum of the three hit latencies divided by 3. *)
Theorem metrics_snapshot_of_run stored ticks0 expirationDays maxCacheSizeMB ops :
  let fresh := constructor clock stored ticks0 expirationDays maxCacheSizeMB in
  let outs := lookups clock ops fresh in
  let c := exec clock ops fresh in
  let h := Z.of_nat (List.length (hitLatencies outs)) in
  let ms := missCount outs in
  metrics c = mkMetrics h ms (sumZ (hitLatencies outs)) h /\
  Report.hitRate (getMetrics c) =
    (if h + ms >? 0
     then PrimFloat.mul (PrimFloat.div (Z2float h) (Z2float (h + ms))) 100%float
     else 0%float) /\
  Report.avgResponseTime (getMetrics c) =
    (if h >? 0
     then PrimFloat.div (Z2float (sumZ (hitLatencies outs))) (Z2float h)
     else 0%float) /\
  (forall text sourceTag targetTag c0,
     lookupOutcome clock text sourceTag targetTag c0 = Miss ->
     let c1 := snd (get clock text sourceTag targetTag c0) in
     fst (get clock text sourceTag targetTag c0) = None /\
     hits (metrics c1) = hits (metrics c0) /\
     misses (metrics c1) = misses (metrics c0) + 1 /\
     totalResponseTime (metrics c1) = totalResponseTime (metrics c0) /\
     responses (metrics c1) = responses (metrics c0)) /\
  (forall l1 l2 l3,
     hitLatencies outs = [l1; l2; l3] -> ms = 1 ->
     Report.hitRate (getMetrics c) = 75%float /\
     Report.avgResponseTime (getMetrics c) =
       PrimFloat.div (Z2float (l1 + l2 + l3)) 3%float).
Proof.
  intros fresh outs c h ms.
  assert (Hm : metrics c = mkMetrics h ms (sumZ (hitLatencies outs)) h).
  { unfold c. rewrite exec_metrics. fold outs.
    replace (metrics fresh) with (mkMetrics 0 0 0 0)
      by (symmetry; apply constructor_metrics).
    cbn [hits misses totalResponseTime responses]. fold h ms.
    f_equal; lia. }
  split; [exact Hm|].
  split; [unfold getMetrics; rewrite Hm; reflexivity|].
  split; [unfold getMetrics; rewrite Hm; reflexivity|].
  split.
  - intros text sourceTag targetTag c0 Hmiss c1.
    split.
    + destruct (fst (get clock text sourceTag targetTag c0)) eqn:E; auto.
      assert (Hn : fst (get clock text sourceTag targetTag c0) <> None)
        by (rewrite E; discriminate).
      apply get_returns_iff_hit in Hn. destruct Hn as [l Hl]. congruence.
    + unfold c1. rewrite get_metrics, Hmiss. simpl. auto.
  - intros l1 l2 l3 Hl Hms.
    unfold getMetrics. rewrite Hm. cbn [hits misses totalResponseTime responses].
    unfold h. rewrite Hl, Hms. cbn [List.length sumZ fold_right].
    replace (l1 + (l2 + (l3 + 0))) with (l1 + l2 + l3) by lia.
    split; reflexivity.
Qed.

End Properties.

(** * Properties on concrete hosts *)

(** C1.  The accounted size stops being the sum of the size estimates of
    the entries in the map as soon as an entry expires: a [get] that finds
    an expired entry removes it from the map and leaves the accounted size
    at 40, and the sweep of the constructor removes the expired entry it
    loaded and leaves the accounted size at 40. *)
Theorem accounted_size_drifts_after_expiry :
  let c := set dayLaterClock "x" "y" "auto" "en"
               (constructor dayLaterClock None 0 1 20) in
  let c1 := snd (get dayLaterClock "x" "auto" "en" c) in
  let c2 := constructor tickingClock (Some oldSnapshot) 0 1 20 in
  (currentCacheSize c = 40 /\ entriesSize (cache c) = 40) /\
  (cache c1 = [] /\ currentCacheSize c1 = 40 /\ entriesSize (cache c1) = 0) /\
  (cache c2 = [] /\ currentCacheSize c2 = 40 /\ entriesSize (cache c2) = 0).
Proof.
  vm_compute. repeat split; reflexivity.
Qed.

(** C2.  One day and one second after [set] stored an entry of 40 bytes,
    [get] finds it expired: it deletes the entry, requests a save, returns
    nothing and leaves the counters alone, and the accounted size is 40
    before the call and 40 after it. *)
Theorem get_expired_keeps_accounted_size :
  let c := set dayLaterClock "x" "y" "auto" "en"
               (constructor dayLaterClock None 0 1 20) in
  let r := get dayLaterClock "x" "auto" "en" c in
  let item := mkItem "y" 1000000002 "auto" "en" in
  Map_get (generateKey "x" "auto" "en") (cache c) = Some item /\
  dayLaterClock (S (ticks c)) - timestamp item > expirationTime c /\
  calculateItemSize (generateKey "x" "auto" "en") item = 40 /\
  fst r = None /\
  cache (snd r) = [] /\
  metrics (snd r) = metrics c /\
  saves (snd r) = SaveWritten 1086401006 [] :: saves c /\
  currentCacheSize c = 40 /\
  currentCacheSize (snd r) = 40.
Proof.
  vm_compute. repeat split; reflexivity.
Qed.

(** C3.  The constructor loads one entry three days past its expiration
    and sweeps it; the save the sweep asks for, two milliseconds after the
    instance was created, is dropped although nothing has been written
    yet, and the stored snapshot still holds the expired entry. *)
Theorem constructor_sweep_save_is_dropped :
  let c := constructor tickingClock (Some oldSnapshot) 0 3 20 in
  cache c = [] /\
  saves c = [SaveDropped 1000000002] /\
  lastSaveTime c = 1000000000 /\
  globalState c = Some oldSnapshot.
Proof.
  vm_compute. repeat split; reflexivity.
Qed.

(** C4 on [threeEntries]: a fourth entry of 36 bytes takes the accounted
    size to 144, over the cap of 130, and the oldest entry alone is
    evicted. *)
Lemma set_evicts_oldest_first_witness :
  NoDup (keys (cache threeEntries)) /\
  (let stored := set_stored tickingClock "d" "ddd" "en" "fr" threeEntries in
   let c' := set tickingClock "d" "ddd" "en" "fr" threeEntries in
   exists evicted kept,
     sort_by_timestamp (cache stored) = evicted ++ kept /\
     StronglySorted le_timestamp (evicted ++ kept) /\
     cache c' = deleteAll evicted (cache stored) /\
     (forall e, In e (cache c') <-> In e kept) /\
     currentCacheSize c' = currentCacheSize stored - entriesSize evicted /\
     (currentCacheSize stored <= maxCacheSize threeEntries -> evicted = []) /\
     (forall pre suf, evicted = pre ++ suf -> suf <> [] ->
        currentCacheSize stored - entriesSize pre > maxCacheSize threeEntries) /\
     (currentCacheSize c' <= maxCacheSize threeEntries \/ cache c' = []) /\
     (forall pre e suf, evicted = pre ++ e :: suf ->
        forall e', In e' (suf ++ kept) -> timestamp (snd e) <= timestamp (snd e')) /\
     (forall e1 e2, In e1 evicted -> In e2 (cache c') ->
        ~ timestamp (snd e2) < timestamp (snd e1))).
Proof.
  assert (H : NoDup (keys (cache threeEntries))).
  { simpl. repeat constructor; simpl; intuition discriminate. }
  split; [exact H|].
  exact (set_evicts_oldest_first tickingClock "d" "ddd" "en" "fr" threeEntries H).
Defined.

(** The store of [threeEntries] after that [set]: [a] is gone, [b], [c]
    and [d] are there. *)
Example eviction_order_on_threeEntries :
  let c' := set tickingClock "d" "ddd" "en" "fr" threeEntries in
  keys (cache c') = ["b|en|fr"; "c|en|fr"; "d|en|fr"] /\
  currentCacheSize c' = 108 /\
  fst (get tickingClock "a" "en" "fr" c') = None /\
  fst (get tickingClock "b" "en" "fr" c') = Some "bbb" /\
  fst (get tickingClock "c" "en" "fr" c') = Some "ccc".
Proof.
  vm_compute. repeat split; reflexivity.
Qed.

(** C5 on a fresh instance: the key ["other"] is not the key written. *)
Lemma set_steps_witness :
  let c := constructor tickingClock None 0 3 20 in
  let stored := set_stored tickingClock "x" "y" "auto" "en" c in
  "other" <> generateKey "x" "auto" "en" /\
  Map_get "other" (cache stored) = Map_get "other" (cache c) /\
  currentCacheSize stored = 40.
Proof.
  assert (H : "other" <> generateKey "x" "auto" "en") by discriminate.
  split; [exact H|]. split.
  - exact (proj1 (proj2 (proj2
             (set_steps tickingClock "x" "y" "auto" "en"
                (constructor tickingClock None 0 3 20)))) "other" H).
  - exact (proj1 (set_steps tickingClock "x" "y" "auto" "en"
                    (constructor tickingClock None 0 3 20))).
Defined.

(** C6 on a fresh instance with a window of three days and a clock that
    stands still. *)
Lemma set_then_get_returns_value_witness :
  let c := constructor frozenClock None 0 3 20 in
  let c' := set frozenClock "x" "y" "auto" "en" c in
  0 <= expirationTime c /\
  frozenClock (S (ticks c')) = frozenClock (ticks c) /\
  Map_has (generateKey "x" "auto" "en") (cache c') = true /\
  fst (get frozenClock "x" "auto" "en" c') = Some "y".
Proof.
  assert (H1 : 0 <= expirationTime (constructor frozenClock None 0 3 20))
    by (vm_compute; discriminate).
  assert (H3 : Map_has (generateKey "x" "auto" "en")
                 (cache (set frozenClock "x" "y" "auto" "en"
                           (constructor frozenClock None 0 3 20))) = true)
    by reflexivity.
  split; [exact H1|]. split; [reflexivity|]. split; [exact H3|].
  exact (set_then_get_returns_value frozenClock "x" "y" "auto" "en"
           (constructor frozenClock None 0 3 20) H1 eq_refl H3).
Defined.

(** C7 as stated fails.  The triples [("a|b", "c", "d")] and
    [("a", "b|c", "d")] differ and share the key ["a|b|c|d"], so a [set]
    under the second replaces what [get] returns for the first.  And with
    distinct keys a [set] under one triple can still change what [get]
    returns for the other: under a cap of 0 bytes the [set] for
    [("hi", "en", "fr")] evicts the entry of [("hi", "en", "de")]. *)
Lemma distinct_triples_can_collide :
  (("a|b", "c", "d") <> ("a", "b|c", "d") /\
   generateKey "a|b" "c" "d" = generateKey "a" "b|c" "d" /\
   let c := set tickingClock "a|b" "v1" "c" "d"
                (constructor tickingClock None 0 3 20) in
   fst (get tickingClock "a|b" "c" "d" c) = Some "v1" /\
   fst (get tickingClock "a|b" "c" "d"
          (set tickingClock "a" "v2" "b|c" "d" c)) = Some "v2") /\
  (let c := constructor tickingClock (Some recentSnapshot) 0 3 0 in
   let c' := set tickingClock "hi" "v1" "en" "fr" c in
   generateKey "hi" "en" "fr" <> generateKey "hi" "en" "de" /\
   fst (get tickingClock "hi" "en" "de" (with_ticks (ticks c') c)) = Some "v2" /\
   fst (get tickingClock "hi" "en" "de" c') = None).
Proof.
  split.
  - split; [discriminate|]. vm_compute. repeat split; reflexivity.
  - split; [discriminate|]. vm_compute. split; reflexivity.
Qed.

(** C7 (amended) on the triples [("hi", "en", "de")] and
    [("hi", "en", "fr")]. *)
Lemma distinct_triples_distinct_keys_witness :
  has_separator "en" = false /\ has_separator "de" = false /\
  has_separator "fr" = false /\
  ("hi", "en", "de") <> ("hi", "en", "fr") /\
  generateKey "hi" "en" "de" <> generateKey "hi" "en" "fr".
Proof.
  assert (Hne : ("hi", "en", "de") <> ("hi", "en", "fr")) by discriminate.
  do 3 (split; [reflexivity|]). split; [exact Hne|].
  exact (proj1 (distinct_triples_distinct_keys tickingClock
                  "hi" "en" "de" "hi" "en" "fr" "v2"
                  (set tickingClock "hi" "v1" "en" "fr"
                     (constructor tickingClock None 0 3 20))
                  eq_refl eq_refl eq_refl eq_refl Hne)).
Defined.

(** Two values stored for the same text under different target tags are
    both returned. *)
Example key_independence :
  let c := set tickingClock "hi" "v2" "en" "de"
             (set tickingClock "hi" "v1" "en" "fr"
                (constructor tickingClock None 0 3 20)) in
  fst (get tickingClock "hi" "en" "fr" c) = Some "v1" /\
  fst (get tickingClock "hi" "en" "de" c) = Some "v2".
Proof.
  vm_compute. split; reflexivity.
Qed.

(** C8 on [threeHitsOneMiss]: the three hits take 20, 32 and 48 ms. *)
Lemma metrics_snapshot_of_run_witness :
  let fresh := constructor slowingClock None 0 3 20 in
  let outs := lookups slowingClock threeHitsOneMiss fresh in
  let c := exec slowingClock threeHitsOneMiss fresh in
  hitLatencies outs = [20; 32; 48] /\
  missCount outs = 1 /\
  Report.hitRate (getMetrics c) = 75%float /\
  Report.avgResponseTime (getMetrics c) = PrimFloat.div (Z2float (20 + 32 + 48)) 3%float.
Proof.
  assert (H1 : hitLatencies (lookups slowingClock threeHitsOneMiss
                               (constructor slowingClock None 0 3 20))
               = [20; 32; 48]) by (vm_compute; reflexivity).
  assert (H2 : missCount (lookups slowingClock threeHitsOneMiss
                            (constructor slowingClock None 0 3 20)) = 1)
    by (vm_compute; reflexivity).
  split; [exact H1|]. split; [exact H2|].
  exact (proj2 (proj2 (proj2 (proj2
           (metrics_snapshot_of_run slowingClock None 0 3 20 threeHitsOneMiss))))
           20 32 48 H1 H2).
Defined.

(** * Further properties of the cache *)

Section LoadAndSweep.

Variable clock : nat -> Z.

Lemma Map_set_fresh k v m : ~ In k (keys m) -> Map_set k v m = m ++ [(k, v)].
Proof.
  induction m as [|[k' v'] m IH]; simpl; intros H; [reflexivity|].
  destruct (String.eqb_spec k k').
  - subst. tauto.
  - rewrite IH by tauto. reflexivity.
Qed.

Lemma Map_get_fresh k m : ~ In k (keys m) -> Map_get k m = None.
Proof.
  induction m as [|[k' v'] m IH]; simpl; intros H; [reflexivity|].
  destruct (String.eqb_spec k k').
  - subst. tauto.
  - apply IH. tauto.
Qed.

Lemma Map_delete_middle k v (pre l : JSMap) :
  NoDup (keys (pre ++ (k, v) :: l)) ->
  Map_delete k (pre ++ (k, v) :: l) = pre ++ l.
Proof.
  induction pre as [|[k' v'] pre IH]; simpl; intros Hnd.
  - rewrite String.eqb_refl. inversion Hnd; subst.
    now apply Map_delete_absent.
  - inversion Hnd as [|? ? Hnotin Hnd']; subst.
    destruct (String.eqb_spec k k').
    + subst. exfalso. apply Hnotin. unfold keys. rewrite map_app.
      apply in_or_app. right. now left.
    + rewrite IH by assumption. reflexivity.
Qed.

(** The loop of [loadCache], started on a store whose keys the stored
    object does not use. *)
Lemma loadCache_fold (l : list Entry) : forall c,
  NoDup (keys (cache c ++ l)) ->
  fold_left
    (fun c (e : Entry) =>
       let (key, item) := e in
       let c := with_cache (Map_set key item (cache c)) c in
       with_currentCacheSize (currentCacheSize c + calculateItemSize key item) c)
    l c =
  with_currentCacheSize (currentCacheSize c + entriesSize l)
    (with_cache (cache c ++ l) c).
Proof.
  induction l as [|[key item] l IH]; intros c Hnd; simpl.
  - rewrite app_nil_r. destruct c; unfold with_currentCacheSize, with_cache; simpl.
    f_equal. lia.
  - assert (Hfresh : ~ In key (keys (cache c))).
    { unfold keys in *. rewrite map_app in Hnd. simpl in Hnd.
      apply NoDup_remove_2 in Hnd. intros H. apply Hnd.
      apply in_or_app. now left. }
    rewrite IH; simpl.
    + rewrite Map_set_fresh by assumption.
      unfold with_currentCacheSize, with_cache; simpl.
      rewrite <- app_assoc. simpl. f_equal. lia.
    + rewrite Map_set_fresh by assumption. rewrite <- app_assoc. exact Hnd.
Qed.

(** The loop of [cleanExpiredCache] keeps the entries that have not
    expired and counts the others. *)
Lemma cleanExpiredCache_fold now (l : list Entry) : forall pre c n,
  cache c = pre ++ l -> NoDup (keys (pre ++ l)) ->
  fold_left
    (fun (st : TranslationCache * Z) (e : Entry) =>
       let (c, expiredCount) := st in
       let (key, item) := e in
       if now - timestamp item >? expirationTime c
       then (with_cache (Map_delete key (cache c)) c, expiredCount + 1)
       else (c, expiredCount))
    l (c, n) =
  (with_cache
     (pre ++ filter (fun e => negb (expiredAt now (expirationTime c) e)) l) c,
   n + Z.of_nat (List.length (filter (expiredAt now (expirationTime c)) l))).
Proof.
  induction l as [|[key item] l IH]; intros pre c n Hc Hnd.
  - simpl. rewrite <- Hc. destruct c; unfold with_cache; simpl. f_equal. lia.
  - cbn [fold_left filter].
    change (now - timestamp item >? expirationTime c)
      with (expiredAt now (expirationTime c) (key, item)).
    destruct (expiredAt now (expirationTime c) (key, item)) eqn:E;
      cbn [negb List.length].
    + rewrite (IH pre).
      * unfold with_cache; cbn -[Z.add Z.of_nat]. f_equal. lia.
      * cbn [cache with_cache]. rewrite Hc. now apply Map_delete_middle.
      * unfold keys in *. rewrite map_app in *. simpl in Hnd.
        now apply NoDup_remove_1 in Hnd.
    + rewrite (IH (pre ++ [(key, item)])).
      * rewrite <- app_assoc. reflexivity.
      * rewrite <- app_assoc. exact Hc.
      * rewrite <- app_assoc. exact Hnd.
Qed.

(** [cleanExpiredCache] as a filter followed by a conditional save. *)
Lemma cleanExpiredCache_eq c :
  NoDup (keys (cache c)) ->
  let now := clock (ticks c) in
  let c1 :=
    with_cache
      (filter (fun e => negb (expiredAt now (expirationTime c) e)) (cache c))
      (with_ticks (S (ticks c)) c) in
  cleanExpiredCache clock c =
  if existsb (expiredAt now (expirationTime c)) (cache c)
  then saveCache clock c1 else c1.
Proof.
  intros Hnd now c1. unfold cleanExpiredCache, Date_now.
  cbv beta iota zeta.
  change (cache (with_ticks (S (ticks c)) c)) with (cache c).
  rewrite (cleanExpiredCache_fold (clock (ticks c)) (cache c) []
             (with_ticks (S (ticks c)) c) 0 eq_refl Hnd).
  simpl. fold now. fold c1.
  assert (H : forall l : list Entry,
             (Z.of_nat (List.length
                    (filter (expiredAt now (expirationTime c)) l)) >? 0)
             = existsb (expiredAt now (expirationTime c)) l).
  { induction l as [|e l IH]; [reflexivity|].
    cbn [filter existsb].
    destruct (expiredAt now (expirationTime c) e); cbn [orb].
    - cbn [List.length].
      destruct (Z.gtb_spec (Z.of_nat (S (List.length
                  (filter (expiredAt now (expirationTime c)) l)))) 0);
        [reflexivity | lia].
    - exact IH. }
  rewrite H. reflexivity.
Qed.

(** [loadCache] on a new instance takes over the stored object as it is. *)
Lemma loadCache_new snap window cap m last t :
  NoDup (keys snap) ->
  loadCache (mkCache [] window cap 0 m last (Some snap) t []) =
  mkCache snap window cap (entriesSize snap) m last (Some snap) t [].
Proof.
  intros Hnd. unfold loadCache. cbn [globalState].
  rewrite loadCache_fold by exact Hnd. reflexivity.
Qed.

(** X1.  The constructor keeps exactly the stored entries whose age, at
    the reading of the clock the sweep takes, does not exceed the
    expiration window, in the order in which they were stored. *)
Theorem constructor_keeps_unexpired snap ticks0 expirationDays maxCacheSizeMB :
  NoDup (keys snap) ->
  cache (constructor clock (Some snap) ticks0 expirationDays maxCacheSizeMB) =
  filter
    (fun e => negb (expiredAt (clock (S ticks0))
                      (expirationDays * 24 * 60 * 60 * 1000) e))
    snap.
Proof.
  intros Hnd. unfold constructor.
  rewrite loadCache_new by exact Hnd.
  rewrite cleanExpiredCache_eq by exact Hnd. cbn [ticks expirationTime cache].
  destruct (existsb _ snap); [rewrite saveCache_cache|]; reflexivity.
Qed.

Lemma filter_unexpired_all now window (l : list Entry) :
  existsb (expiredAt now window) l = false ->
  filter (fun e => negb (expiredAt now window e)) l = l.
Proof.
  induction l as [|e l IH]; [reflexivity|].
  cbn [existsb filter]. intros H. apply orb_false_iff in H.
  destruct H as [He Hl]. rewrite He. cbn [negb]. f_equal. now apply IH.
Qed.

Lemma constructor_clean_start snap ticks0 expirationDays maxCacheSizeMB :
  NoDup (keys snap) ->
  existsb (expiredAt (clock (S ticks0)) (expirationDays * 24 * 60 * 60 * 1000))
          snap = false ->
  let c := constructor clock (Some snap) ticks0 expirationDays maxCacheSizeMB in
  cache c = snap /\
  currentCacheSize c = entriesSize snap.
Proof.
  intros Hnd Hex c. unfold c, constructor.
  rewrite loadCache_new by exact Hnd.
  rewrite cleanExpiredCache_eq by exact Hnd. cbn [ticks expirationTime cache].
  rewrite Hex. cbn. split; auto.
  now apply filter_unexpired_all.
Qed.

(** X2.  When no stored entry has expired, the constructor takes the stored
    object over unchanged, accounts for it exactly, and neither asks for a
    save nor touches the persisted snapshot. *)
Theorem constructor_without_expiry snap ticks0 expirationDays maxCacheSizeMB :
  NoDup (keys snap) ->
  existsb (expiredAt (clock (S ticks0)) (expirationDays * 24 * 60 * 60 * 1000))
          snap = false ->
  let c := constructor clock (Some snap) ticks0 expirationDays maxCacheSizeMB in
  cache c = snap /\
  currentCacheSize c = entriesSize snap /\
  saves c = [] /\
  globalState c = Some snap.
Proof.
  intros Hnd Hex c. unfold c, constructor.
  rewrite loadCache_new by exact Hnd.
  rewrite cleanExpiredCache_eq by exact Hnd. cbn [ticks expirationTime cache].
  rewrite Hex. cbn.
  repeat split; auto.
  now apply filter_unexpired_all.
Qed.

(** X3.  What a save writes is what a later instance loads: when
    [saveCache] is due, a new instance built over the persisted snapshot,
    at a time when none of the entries has expired, holds the same entries
    in the same order and accounts for exactly their size estimates. *)
Theorem saved_snapshot_reloads (clock1 : nat -> Z) c ticks0 expirationDays
    maxCacheSizeMB :
  NoDup (keys (cache c)) ->
  clock1 (ticks c) - lastSaveTime c >= 1000 ->
  existsb (expiredAt (clock (S ticks0)) (expirationDays * 24 * 60 * 60 * 1000))
          (cache c) = false ->
  let c2 := constructor clock (globalState (saveCache clock1 c)) ticks0
                        expirationDays maxCacheSizeMB in
  cache c2 = cache c /\
  currentCacheSize c2 = entriesSize (cache c).
Proof.
  intros Hnd Hdue Hex c2.
  assert (Hg : globalState (saveCache clock1 c) = Some (cache c)).
  { unfold saveCache, Date_now. cbn.
    destruct (Z.ltb_spec (clock1 (ticks c) - lastSaveTime c) 1000);
      [lia | reflexivity]. }
  unfold c2. rewrite Hg.
  exact (constructor_clean_start (cache c) ticks0 expirationDays
           maxCacheSizeMB Hnd Hex).
Qed.

End LoadAndSweep.

Section Accounting.

Variable clock : nat -> Z.

Lemma calculateItemSize_pos k v : 8 <= calculateItemSize k v.
Proof. unfold calculateItemSize, len. lia. Qed.

Lemma entriesSize_nonneg m : 0 <= entriesSize m.
Proof.
  induction m as [|[k v] m IH]; simpl; [lia|].
  pose proof (calculateItemSize_pos k v). lia.
Qed.

Lemma entriesSize_filter_le (f : Entry -> bool) m :
  entriesSize (filter f m) <= entriesSize m.
Proof.
  induction m as [|[k v] m IH]; simpl; [lia|].
  pose proof (calculateItemSize_pos k v).
  destruct (f (k, v)); simpl; lia.
Qed.

Lemma entriesSize_Map_delete_le k m :
  NoDup (keys m) -> entriesSize (Map_delete k m) <= entriesSize m.
Proof.
  intros H. rewrite entriesSize_Map_delete by exact H.
  destruct (Map_get k m) as [old|]; [|lia].
  pose proof (calculateItemSize_pos k old). lia.
Qed.

(** The constructor, for a stored object with unique keys. *)
Lemma constructor_eq stored ticks0 days mb :
  NoDup (keys (storedEntries stored)) ->
  let snap := storedEntries stored in
  let now := clock (S ticks0) in
  let window := days * 24 * 60 * 60 * 1000 in
  let c1 :=
    mkCache (filter (fun e => negb (expiredAt now window e)) snap)
            window (mb * 1024 * 1024) (entriesSize snap) (mkMetrics 0 0 0 0)
            (clock ticks0) stored (S (S ticks0)) [] in
  constructor clock stored ticks0 days mb =
  if existsb (expiredAt now window) snap then saveCache clock c1 else c1.
Proof.
  intros Hnd snap now window c1. unfold constructor.
  assert (Hload :
    loadCache (mkCache [] window (mb * 1024 * 1024) 0 (mkMetrics 0 0 0 0)
                       (clock ticks0) stored (S ticks0) []) =
    mkCache snap window (mb * 1024 * 1024) (entriesSize snap) (mkMetrics 0 0 0 0)
            (clock ticks0) stored (S ticks0) []).
  { destruct stored as [m|]; [now apply loadCache_new | reflexivity]. }
  fold window. rewrite Hload.
  rewrite cleanExpiredCache_eq by exact Hnd. reflexivity.
Qed.

Lemma constructor_fields stored ticks0 days mb :
  NoDup (keys (storedEntries stored)) ->
  let c := constructor clock stored ticks0 days mb in
  cache c =
    filter (fun e => negb (expiredAt (clock (S ticks0))
                             (days * 24 * 60 * 60 * 1000) e))
           (storedEntries stored) /\
  currentCacheSize c = entriesSize (storedEntries stored) /\
  maxCacheSize c = mb * 1024 * 1024 /\
  expirationTime c = days * 24 * 60 * 60 * 1000.
Proof.
  intros Hnd c. unfold c. rewrite constructor_eq by exact Hnd.
  destruct (existsb _ _);
    rewrite ?saveCache_cache, ?saveCache_currentCacheSize,
            ?saveCache_maxCacheSize, ?saveCache_expirationTime;
    auto.
Qed.

(** [set] changes the accounted size and the sum of the estimates by the
    same amount. *)
Lemma set_drift text value sourceTag targetTag c :
  NoDup (keys (cache c)) ->
  let c' := set clock text value sourceTag targetTag c in
  currentCacheSize c' - entriesSize (cache c') =
  currentCacheSize c - entriesSize (cache c).
Proof.
  intros Hnd c'.
  destruct (set_cache clock text value sourceTag targetTag c) as [Hc Hs].
  fold c' in Hc, Hs. rewrite Hc, Hs.
  set (stored := set_stored clock text value sourceTag targetTag c) in *.
  assert (Hnd' : NoDup (keys (cache stored)))
    by (unfold stored, set_stored; simpl; now apply NoDup_Map_set).
  assert (Hst : currentCacheSize stored - entriesSize (cache stored) =
                currentCacheSize c - entriesSize (cache c)).
  { destruct (set_stored_fields clock text value sourceTag targetTag c)
      as (H1 & H2 & _).
    fold stored in H1, H2. rewrite H1, H2, entriesSize_Map_set. lia. }
  destruct (evictedPrefix_is_prefix (sort_by_timestamp (cache stored))
              (currentCacheSize stored) (maxCacheSize stored)) as [kept Hk].
  set (P := evictedPrefix _ _ _) in *.
  assert (Hperm : Permutation (P ++ kept) (cache stored))
    by (rewrite <- Hk; apply sort_by_timestamp_Permutation).
  rewrite entriesSize_deleteAll; auto.
  - lia.
  - assert (Hnd2 : NoDup (keys (P ++ kept))).
    { eapply Permutation_NoDup; [|exact Hnd'].
      unfold keys. apply Permutation_map. now symmetry. }
    unfold keys in Hnd2. rewrite map_app in Hnd2.
    now apply NoDup_app_remove_r in Hnd2.
  - intros e He. apply (Permutation_in _ Hperm). apply in_or_app. now left.
Qed.

(** No mutator lets the accounted size fall below the sum of the
    estimates. *)
Lemma apply_op_not_under o c :
  NoDup (keys (cache c)) ->
  entriesSize (cache c) <= currentCacheSize c ->
  entriesSize (cache (apply_op clock o c)) <= currentCacheSize (apply_op clock o c).
Proof.
  intros Hnd H.
  destruct o as [text sourceTag targetTag|text value sourceTag targetTag|];
    cbn [apply_op].
  - destruct (get_cache_cases clock text sourceTag targetTag c)
      as [(Hc & Hs & _)|(Hc & Hs & _)]; rewrite Hc, Hs; auto.
    pose proof (entriesSize_Map_delete_le
                  (generateKey text sourceTag targetTag) (cache c) Hnd).
    lia.
  - pose proof (set_drift text value sourceTag targetTag c Hnd) as Hd.
    cbv zeta in Hd. lia.
  - pose proof (clear_accounted clock c) as Ha. unfold accounted in Ha. lia.
Qed.

Lemma exec_not_under ops : forall c,
  NoDup (keys (cache c)) ->
  entriesSize (cache c) <= currentCacheSize c ->
  entriesSize (cache (exec clock ops c)) <= currentCacheSize (exec clock ops c).
Proof.
  unfold exec.
  induction ops as [|o ops IH]; intros c Hnd H; simpl; auto.
  apply IH; [now apply apply_op_NoDup | now apply apply_op_not_under].
Qed.

Lemma apply_op_maxCacheSize o c :
  maxCacheSize (apply_op clock o c) = maxCacheSize c.
Proof.
  destruct o as [text sourceTag targetTag|text value sourceTag targetTag|];
    cbn [apply_op].
  - destruct (Map_get (generateKey text sourceTag targetTag) (cache c))
      as [item|] eqn:Hk.
    + destruct (Z.gtb_spec (clock (S (ticks c)) - timestamp item)
                           (expirationTime c)).
      * rewrite (get_expired _ _ _ _ _ _ Hk) by lia. cbn [snd].
        now rewrite saveCache_maxCacheSize.
      * now rewrite (get_hit _ _ _ _ _ _ Hk) by lia.
    + now rewrite (get_miss _ _ _ _ _ Hk).
  - rewrite set_unfold, saveCache_maxCacheSize.
    destruct (checkAndCleanCacheSize_fields clock
                (set_stored clock text value sourceTag targetTag c))
      as (_ & _ & Hm & _).
    rewrite Hm. reflexivity.
  - unfold clear. now rewrite saveCache_maxCacheSize.
Qed.

Lemma exec_maxCacheSize ops : forall c,
  maxCacheSize (exec clock ops c) = maxCacheSize c.
Proof.
  unfold exec.
  induction ops as [|o ops IH]; intros c; simpl; auto.
  rewrite IH. apply apply_op_maxCacheSize.
Qed.

Lemma constructor_not_under stored ticks0 days mb :
  NoDup (keys (storedEntries stored)) ->
  let c := constructor clock stored ticks0 days mb in
  entriesSize (cache c) <= currentCacheSize c.
Proof.
  intros Hnd c.
  destruct (constructor_fields stored ticks0 days mb Hnd) as (Hc & Hs & _).
  fold c in Hc, Hs. rewrite Hc, Hs. apply entriesSize_filter_le.
Qed.

(** X4.  However an instance is used, its accounted size is never below
    the sum of the size estimates of the entries it holds. *)
Theorem accounted_size_never_under_counts stored ticks0 days mb ops :
  NoDup (keys (storedEntries stored)) ->
  let c := exec clock ops (constructor clock stored ticks0 days mb) in
  entriesSize (cache c) <= currentCacheSize c.
Proof.
  intros Hnd c. unfold c.
  apply exec_not_under.
  - apply constructor_NoDup.
  - now apply constructor_not_under.
Qed.

(** X5.  After every [set], in whatever state an instance has reached, the
    size estimates of the entries in the store add up to at most
    [maxCacheSize], provided the configured cap is not negative. *)
Theorem set_keeps_store_within_cap stored ticks0 days mb ops
    text value sourceTag targetTag :
  NoDup (keys (storedEntries stored)) ->
  0 <= mb ->
  let c := exec clock ops (constructor clock stored ticks0 days mb) in
  entriesSize (cache (set clock text value sourceTag targetTag c))
    <= mb * 1024 * 1024.
Proof.
  intros Hnd Hmb c.
  assert (Hnc : NoDup (keys (cache c)))
    by (apply exec_NoDup, constructor_NoDup).
  assert (Hmax : maxCacheSize c = mb * 1024 * 1024).
  { unfold c. rewrite exec_maxCacheSize.
    now destruct (constructor_fields stored ticks0 days mb Hnd) as (_ & _ & H & _). }
  assert (Hunder : entriesSize (cache (set clock text value sourceTag targetTag c))
                   <= currentCacheSize (set clock text value sourceTag targetTag c)).
  { apply (apply_op_not_under (OpSet text value sourceTag targetTag) c Hnc).
    unfold c. apply exec_not_under;
      [apply constructor_NoDup | now apply constructor_not_under]. }
  rewrite set_unfold in *. rewrite saveCache_cache, saveCache_currentCacheSize in *.
  assert (Hns : NoDup (keys (cache (set_stored clock text value sourceTag targetTag c))))
    by (unfold set_stored; simpl; now apply NoDup_Map_set).
  destruct (checkAndCleanCacheSize_spec clock _ Hns)
    as (evicted & kept & _ & _ & _ & _ & _ & _ & Hstop).
  destruct (checkAndCleanCacheSize_fields clock
              (set_stored clock text value sourceTag targetTag c))
    as (_ & _ & Hm & _).
  rewrite Hm in Hstop. change (maxCacheSize (set_stored clock text value sourceTag targetTag c))
    with (maxCacheSize c) in Hstop.
  destruct Hstop as [Hle|Hempty].
  - lia.
  - rewrite Hempty. simpl. lia.
Qed.

(** Every mutator keeps exact accounting unless a [get] meets an expired
    entry. *)
Lemma exec_accounted ops : forall c,
  NoDup (keys (cache c)) -> accounted c ->
  ~ In Expired (lookups clock ops c) ->
  accounted (exec clock ops c).
Proof.
  unfold exec.
  induction ops as [|o ops IH]; intros c Hnd Hacc Hno; simpl; auto.
  cbn [lookups] in Hno.
  apply IH.
  - now apply apply_op_NoDup.
  - destruct o as [text sourceTag targetTag|text value sourceTag targetTag|];
      cbn [apply_op].
    + apply get_accounted_unless_expired; auto.
      intros E. apply Hno. apply in_or_app. left. rewrite E. now left.
    + now apply set_accounted.
    + apply clear_accounted.
  - intros HIn. apply Hno. apply in_or_app. now right.
Qed.

(** X6.  When the constructor finds no expired entry and no [get] of a run
    meets one, the accounted size is, after the run, exactly the sum of the
    size estimates of the entries in the store. *)
Theorem accounting_exact_without_expiry stored ticks0 days mb ops :
  NoDup (keys (storedEntries stored)) ->
  existsb (expiredAt (clock (S ticks0)) (days * 24 * 60 * 60 * 1000))
          (storedEntries stored) = false ->
  let fresh := constructor clock stored ticks0 days mb in
  ~ In Expired (lookups clock ops fresh) ->
  currentCacheSize (exec clock ops fresh) = entriesSize (cache (exec clock ops fresh)).
Proof.
  intros Hnd Hex fresh Hno.
  apply exec_accounted; auto.
  - apply constructor_NoDup.
  - unfold accounted, fresh.
    destruct (constructor_fields stored ticks0 days mb Hnd) as (Hc & Hs & _).
    rewrite Hc, Hs, filter_unexpired_all by exact Hex. reflexivity.
Qed.

End Accounting.

Section Persistence.

Variable clock : nat -> Z.

Lemma saveCache_throttled t0 c :
  throttled t0 c -> throttled t0 (saveCache clock c).
Proof.
  intros [Ht Hs]. split; [now apply saveCache_tracks|].
  rewrite saveCache_saves.
  destruct (Z.ltb_spec (clock (ticks c) - lastSaveTime c) 1000); cbn [spaced]; auto.
  split; auto. unfold lastSaveTime_tracks in Ht. rewrite <- Ht. lia.
Qed.

Lemma checkAndCleanCacheSize_throttled t0 c :
  throttled t0 c -> throttled t0 (checkAndCleanCacheSize clock c).
Proof.
  intros H. unfold checkAndCleanCacheSize.
  destruct (currentCacheSize c <=? maxCacheSize c); auto.
  rewrite evictLoop_eq.
  destruct (0 + Z.of_nat (List.length _) >? 0);
    [apply saveCache_throttled|]; exact H.
Qed.

Lemma apply_op_throttled t0 o c :
  throttled t0 c -> throttled t0 (apply_op clock o c).
Proof.
  intros H.
  destruct o as [text sourceTag targetTag|text value sourceTag targetTag|];
    cbn [apply_op].
  - destruct (Map_get (generateKey text sourceTag targetTag) (cache c))
      as [item|] eqn:Hk.
    + destruct (Z.gtb_spec (clock (S (ticks c)) - timestamp item)
                           (expirationTime c)).
      * rewrite (get_expired _ _ _ _ _ _ Hk) by lia. cbn [snd].
        apply saveCache_throttled. exact H.
      * rewrite (get_hit _ _ _ _ _ _ Hk) by lia. exact H.
    + rewrite (get_miss _ _ _ _ _ Hk). exact H.
  - rewrite set_unfold.
    apply saveCache_throttled, checkAndCleanCacheSize_throttled. exact H.
  - unfold clear. apply saveCache_throttled. exact H.
Qed.

Lemma exec_throttled t0 ops : forall c,
  throttled t0 c -> throttled t0 (exec clock ops c).
Proof.
  unfold exec.
  induction ops as [|o ops IH]; intros c H; simpl; auto.
  apply IH. now apply apply_op_throttled.
Qed.

Lemma loadCache_throttled t0 c : throttled t0 c -> throttled t0 (loadCache c).
Proof.
  unfold loadCache. destruct (globalState c) as [cachedData|]; auto.
  intros H.
  assert (H0 : throttled t0 (with_currentCacheSize 0 c)) by exact H.
  revert H0. generalize (with_currentCacheSize 0 c). clear.
  induction cachedData as [|[key item] l IH]; intros c H; simpl; auto.
Qed.

Lemma cleanExpiredCache_throttled t0 c :
  throttled t0 c -> throttled t0 (cleanExpiredCache clock c).
Proof.
  intros Hc. unfold cleanExpiredCache, Date_now.
  set (now := clock (ticks c)).
  set (f := fun (st : TranslationCache * Z) (e : Entry) => _).
  assert (H : forall l st, throttled t0 (fst st) ->
                           throttled t0 (fst (fold_left f l st))).
  { induction l as [|[key item] l IH]; intros [c1 n] H1; simpl; auto.
    apply IH.
    destruct (now - timestamp item >? expirationTime c1); simpl; auto. }
  specialize (H (cache (with_ticks (S (ticks c)) c))
                (with_ticks (S (ticks c)) c, 0) Hc).
  destruct (fold_left f _ _) as [c1 n]. simpl in H.
  destruct (n >? 0); [apply saveCache_throttled|]; exact H.
Qed.

Lemma constructor_throttled stored ticks0 days mb :
  throttled (clock ticks0) (constructor clock stored ticks0 days mb).
Proof.
  unfold constructor. apply cleanExpiredCache_throttled, loadCache_throttled.
  split; [reflexivity | exact I].
Qed.

Lemma spaced_app t0 h1 : forall h2, spaced t0 (h1 ++ h2) -> spaced t0 h2.
Proof.
  induction h1 as [|[t|t o] h1 IH]; intros h2; cbn [app spaced]; auto.
  intros [_ H]. auto.
Qed.

(** In a spaced history the most recent write is not older than any write
    before it. *)
Lemma spaced_lastWrite t0 h : forall t o h',
  spaced t0 (h ++ SaveWritten t o :: h') ->
  exists t', lastWrite (h ++ SaveWritten t o :: h') = Some t' /\ t <= t'.
Proof.
  induction h as [|[td|tw ow] h IH]; intros t o h'; cbn [app spaced lastWrite].
  - intros _. exists t. split; [reflexivity | lia].
  - apply IH.
  - intros [Hgap Hs]. destruct (IH t o h' Hs) as (t' & Hl & Hle).
    rewrite Hl in Hgap. exists tw. split; [reflexivity | lia].
Qed.

(** X7.  Durable writes are throttled: in the history of any instance,
    two writes are at least 1000 ms apart. *)
Theorem writes_at_least_a_second_apart stored ticks0 days mb ops
    h1 t1 o1 h2 t2 o2 h3 :
  let c := exec clock ops (constructor clock stored ticks0 days mb) in
  saves c = h1 ++ SaveWritten t1 o1 :: h2 ++ SaveWritten t2 o2 :: h3 ->
  t1 - t2 >= 1000.
Proof.
  intros c E.
  assert (H : throttled (clock ticks0) c)
    by (apply exec_throttled, constructor_throttled).
  destruct H as [_ Hs]. rewrite E in Hs.
  apply spaced_app in Hs. cbn [spaced] in Hs. destruct Hs as [Hgap Hs].
  destruct (spaced_lastWrite _ _ _ _ _ Hs) as (t' & Hl & Hle).
  rewrite Hl in Hgap. lia.
Qed.

Lemma saveCache_written c t o rest :
  saves (saveCache clock c) = SaveWritten t o :: rest ->
  o = cache c /\ globalState (saveCache clock c) = Some (cache c).
Proof.
  rewrite saveCache_saves. unfold saveCache, Date_now. cbn.
  destruct (clock (ticks c) - lastSaveTime c <? 1000); [discriminate|].
  intros [= _ <- _]. auto.
Qed.

(** X8.  When the save that ends [set], or [clear], is not dropped, the
    persisted snapshot is the whole store as the call leaves it. *)
Theorem written_snapshot_is_the_store o c t obj rest :
  (forall text sourceTag targetTag, o <> OpGet text sourceTag targetTag) ->
  saves (apply_op clock o c) = SaveWritten t obj :: rest ->
  obj = cache (apply_op clock o c) /\
  globalState (apply_op clock o c) = Some (cache (apply_op clock o c)).
Proof.
  intros Hop.
  destruct o as [text sourceTag targetTag|text value sourceTag targetTag|];
    cbn [apply_op].
  - exfalso. now apply (Hop text sourceTag targetTag).
  - rewrite set_unfold, saveCache_cache. apply saveCache_written.
  - unfold clear. rewrite saveCache_cache. apply saveCache_written.
Qed.

End Persistence.

Section StoreAndLookup.

Variable clock : nat -> Z.

(** X9.  [get] leaves the entries of all other keys alone.  When it returns
    a value, that value is the result of an unexpired entry under the key
    and the store is exactly as it was; when it returns nothing, there is no
    entry under the key afterwards. *)
Theorem get_touches_only_its_key text sourceTag targetTag c :
  let key := generateKey text sourceTag targetTag in
  let r := get clock text sourceTag targetTag c in
  (forall k, k <> key -> Map_get k (cache (snd r)) = Map_get k (cache c)) /\
  (forall v, fst r = Some v ->
     cache (snd r) = cache c /\
     exists item, Map_get key (cache c) = Some item /\ result item = v /\
                  clock (S (ticks c)) - timestamp item <= expirationTime c) /\
  (fst r = None -> Map_get key (cache (snd r)) = None).
Proof.
  intros key r. unfold r.
  destruct (Map_get key (cache c)) as [item|] eqn:Hk.
  - destruct (Z.gtb_spec (clock (S (ticks c)) - timestamp item) (expirationTime c)).
    + rewrite (get_expired _ _ _ _ _ _ Hk) by lia. cbn [fst snd].
      rewrite saveCache_cache. cbn [cache with_cache].
      split; [|split].
      * intros k Hne. apply Map_get_delete_neq.
        intros E. apply Hne. symmetry. exact E.
      * discriminate.
      * intros _. apply Map_get_delete_eq.
    + rewrite (get_hit _ _ _ _ _ _ Hk) by lia. cbn [fst snd cache with_metrics].
      split; [|split].
      * reflexivity.
      * intros v [= <-]. split; [reflexivity|]. exists item. auto.
      * discriminate.
  - rewrite (get_miss _ _ _ _ _ Hk). cbn [fst snd cache with_metrics].
    split; [|split].
    + reflexivity.
    + discriminate.
    + intros _. exact Hk.
Qed.

Lemma In_Map_set e k v m :
  NoDup (keys m) ->
  In e (Map_set k v m) -> e = (k, v) \/ (In e m /\ fst e <> k).
Proof.
  induction m as [|[k' v'] m IH]; simpl; intros Hnd.
  - intros [<-|[]]. now left.
  - inversion Hnd as [|? ? Hnotin Hnd']; subst.
    destruct (String.eqb_spec k k').
    + subst k'. intros [<-|H]; [now left|].
      right. split; [now right|].
      intros E. apply Hnotin. rewrite <- E. now apply in_map.
    + intros [<-|H].
      * right. split; [now left | simpl; congruence].
      * destruct (IH Hnd' H) as [->|[H1 H2]]; [now left|].
        right. split; [now right | exact H2].
Qed.

Lemma length_Map_set k v m :
  List.length (Map_set k v m) =
  (if Map_has k m then List.length m else S (List.length m)).
Proof.
  unfold Map_has.
  induction m as [|[k' v'] m IH]; simpl; [reflexivity|].
  destruct (String.eqb_spec k k'); simpl; [reflexivity|].
  rewrite IH. destruct (Map_get k m); reflexivity.
Qed.

(** X10.  In a store whose accounted size is exact, a new entry that fits
    under the cap on its own and is strictly more recent than every other
    entry survives the eviction that [set] runs, so that a [get] of the same
    triple, made while the entry's age is within the expiration window,
    returns the value. *)
Theorem set_then_get_when_entry_fits text value sourceTag targetTag c :
  let key := generateKey text sourceTag targetTag in
  let item := mkItem value (clock (ticks c)) sourceTag targetTag in
  let c' := set clock text value sourceTag targetTag c in
  NoDup (keys (cache c)) ->
  currentCacheSize c = entriesSize (cache c) ->
  calculateItemSize key item <= maxCacheSize c ->
  (forall k v, In (k, v) (cache c) -> k <> key -> timestamp v < clock (ticks c)) ->
  clock (S (ticks c')) - clock (ticks c) <= expirationTime c ->
  Map_get key (cache c') = Some item /\
  fst (get clock text sourceTag targetTag c') = Some value.
Proof.
  intros key item c' Hnd Hacc Hfit Hold Hage.
  set (stored := set_stored clock text value sourceTag targetTag c).
  assert (Hcs : cache stored = Map_set key item (cache c)) by reflexivity.
  assert (Hnd' : NoDup (keys (cache stored)))
    by (rewrite Hcs; now apply NoDup_Map_set).
  assert (Hst : currentCacheSize stored = entriesSize (cache stored)).
  { destruct (set_stored_fields clock text value sourceTag targetTag c)
      as (H1 & H2 & _).
    fold stored key item in H1, H2. rewrite H1, H2, entriesSize_Map_set, Hacc.
    reflexivity. }
  destruct (checkAndCleanCacheSize_spec clock stored Hnd')
    as (evicted & kept & Hsort & Hcache & HIn & _ & _ & Hcont & _).
  assert (Hperm : Permutation (evicted ++ kept) (cache stored))
    by (rewrite <- Hsort; apply sort_by_timestamp_Permutation).
  assert (Hsorted : StronglySorted le_timestamp (evicted ++ kept))
    by (rewrite <- Hsort; apply sort_by_timestamp_sorted).
  assert (Hnd2 : NoDup (keys (evicted ++ kept))).
  { eapply Permutation_NoDup; [|exact Hnd'].
    unfold keys. apply Permutation_map. now symmetry. }
  assert (Helem : In (key, item) (cache stored)).
  { rewrite Hcs. apply Map_get_In. apply Map_get_set_eq. }
  assert (Hkept : In (key, item) kept).
  { apply (Permutation_in _ (Permutation_sym Hperm)) in Helem.
    apply in_app_or in Helem. destruct Helem as [Hev|]; [|assumption].
    exfalso.
    apply in_split in Hev. destruct Hev as (pre & suf & Hev).
    assert (Hrest : suf ++ kept = []).
    { destruct (suf ++ kept) as [|e' rest] eqn:Erest; [reflexivity|].
      exfalso.
      rewrite Hev, <- app_assoc in Hsorted, Hnd2, Hperm.
      cbn [app] in Hsorted, Hnd2, Hperm. rewrite Erest in *.
      apply sorted_app_r in Hsorted.
      inversion Hsorted as [|? ? _ Hall]; subst.
      inversion Hall as [|? ? Hle _]; subst.
      unfold le_timestamp in Hle. cbn [snd timestamp item] in Hle.
      assert (He' : In e' (cache stored)).
      { apply (Permutation_in _ Hperm). apply in_or_app. right. right. now left. }
      assert (Hk' : fst e' <> key).
      { unfold keys in Hnd2. rewrite map_app in Hnd2. cbn [map fst] in Hnd2.
        apply NoDup_remove_2 in Hnd2. intros E. apply Hnd2.
        apply in_or_app. right. left. exact E. }
      rewrite Hcs in He'. apply In_Map_set in He'; [|exact Hnd].
      destruct He' as [->|[He' _]]; [now apply Hk'|].
      destruct e' as [k' v']. cbn [fst snd] in *.
      specialize (Hold k' v' He' Hk'). lia. }
    apply app_eq_nil in Hrest. destruct Hrest as [-> ->].
    rewrite app_nil_r in *.
    assert (Hover : currentCacheSize stored - entriesSize pre > maxCacheSize stored)
      by (apply (Hcont pre [(key, item)] Hev); discriminate).
    rewrite Hst, <- (entriesSize_Permutation _ _ Hperm), Hev, entriesSize_app
      in Hover.
    cbn [entriesSize fold_right fst snd] in Hover.
    change (maxCacheSize stored) with (maxCacheSize c) in Hover. lia. }
  assert (Hc' : cache c' = cache (checkAndCleanCacheSize clock stored)).
  { unfold c', stored. now rewrite set_unfold, saveCache_cache. }
  assert (Hget : Map_get key (cache c') = Some item).
  { apply In_Map_get.
    - unfold c'. apply (apply_op_NoDup clock (OpSet text value sourceTag targetTag) c Hnd).
    - rewrite Hc'. now apply HIn. }
  split; [exact Hget|].
  apply set_get_within_window; [exact Hage|].
  fold key c'. unfold Map_has. now rewrite Hget.
Qed.

(** X11.  A [set] that stays within the cap adds one to the number of
    entries when the key is new and leaves the number as it was when it
    overwrites. *)
Theorem set_within_cap_counts text value sourceTag targetTag c :
  currentCacheSize (set_stored clock text value sourceTag targetTag c)
    <= maxCacheSize c ->
  size (set clock text value sourceTag targetTag c) =
  size c + (if Map_has (generateKey text sourceTag targetTag) (cache c)
            then 0 else 1).
Proof.
  intros Hcap. unfold size.
  rewrite set_unfold, saveCache_cache.
  rewrite checkAndCleanCacheSize_within_cap by exact Hcap.
  unfold set_stored. cbn [cache with_cache].
  rewrite length_Map_set.
  destruct (Map_has (generateKey text sourceTag targetTag) (cache c)); lia.
Qed.

Lemma length_Map_delete k v m :
  NoDup (keys m) -> Map_get k m = Some v ->
  S (List.length (Map_delete k m)) = List.length m.
Proof.
  induction m as [|[k' v'] m IH]; simpl; intros Hnd Hk; [discriminate|].
  inversion Hnd as [|? ? Hnotin Hnd']; subst.
  destruct (String.eqb_spec k k').
  - subst k'. now rewrite Map_delete_absent.
  - simpl. now rewrite IH.
Qed.

(** X18.  Once the age of the entry that [set] wrote exceeds the expiration
    window, a [get] of the same triple returns nothing, removes the entry
    and leaves one entry fewer in the store. *)
Theorem set_then_get_after_window text value sourceTag targetTag c :
  let key := generateKey text sourceTag targetTag in
  let c' := set clock text value sourceTag targetTag c in
  let r := get clock text sourceTag targetTag c' in
  NoDup (keys (cache c)) ->
  Map_has key (cache c') = true ->
  clock (S (ticks c')) - clock (ticks c) > expirationTime c ->
  fst r = None /\
  Map_get key (cache (snd r)) = None /\
  size (snd r) = size c' - 1.
Proof.
  intros key c' r Hnd Hhas Hage.
  assert (Hk : Map_get key (cache c') =
               Some (mkItem value (clock (ticks c)) sourceTag targetTag)).
  { destruct (set_cache_at_key clock text value sourceTag targetTag c) as [H|H];
      fold key c' in H; auto.
    unfold Map_has in Hhas. rewrite H in Hhas. discriminate. }
  assert (Hexp : clock (S (ticks c')) -
                 timestamp (mkItem value (clock (ticks c)) sourceTag targetTag)
                 > expirationTime c').
  { unfold c'. rewrite set_expirationTime. exact Hage. }
  unfold r. rewrite (get_expired clock text sourceTag targetTag c' _ Hk Hexp).
  cbn [fst snd]. unfold size. rewrite saveCache_cache. cbn [cache with_cache].
  fold key. split; [reflexivity|]. split; [apply Map_get_delete_eq|].
  assert (Hnd' : NoDup (keys (cache c')))
    by (apply (apply_op_NoDup clock (OpSet text value sourceTag targetTag) c Hnd)).
  pose proof (length_Map_delete key _ (cache c') Hnd' Hk). lia.
Qed.

(** The sort keeps entries of equal [timestamp] in the order they have in
    the map. *)
Lemma insert_by_timestamp_stable t e (l : list Entry) :
  filter (fun x => timestamp (snd x) =? t) (insert_by_timestamp e l) =
  filter (fun x => timestamp (snd x) =? t) (e :: l).
Proof.
  induction l as [|x l IH]; [reflexivity|].
  cbn [insert_by_timestamp].
  destruct (Z.leb_spec (timestamp (snd e)) (timestamp (snd x))); [reflexivity|].
  cbn [filter] in *. rewrite IH.
  destruct (Z.eqb_spec (timestamp (snd x)) t);
    destruct (Z.eqb_spec (timestamp (snd e)) t); try reflexivity.
  lia.
Qed.

(** The list that [checkAndCleanCacheSize] walks has the entries of any
    one [timestamp] in the order in which the map holds them. *)
Lemma sort_by_timestamp_stable t (m : JSMap) :
  filter (fun x => timestamp (snd x) =? t) (sort_by_timestamp m) =
  filter (fun x => timestamp (snd x) =? t) m.
Proof.
  induction m as [|e m IH]; [reflexivity|].
  cbn [sort_by_timestamp fold_right].
  rewrite insert_by_timestamp_stable. cbn [filter].
  fold (sort_by_timestamp m). rewrite IH. reflexivity.
Qed.

(** X19.  When the text, the format label and the tags contain no [|], the
    cache slot of a formatted result differs from the slot of every plain
    text without [|], and two formatted slots coincide only for the same
    text, label and tags. *)
Theorem format_slots_are_separate text f from to text' f' from' to' :
  has_separator f = false -> has_separator from = false ->
  has_separator to = false ->
  has_separator f' = false -> has_separator from' = false ->
  has_separator to' = false ->
  (has_separator text' = false ->
   generateKey (text ++ "|" ++ f) from to <> generateKey text' from' to') /\
  (generateKey (text ++ "|" ++ f) from to =
   generateKey (text' ++ "|" ++ f') from' to' ->
   text = text' /\ f = f' /\ from = from' /\ to = to').
Proof.
  intros Hf Hfrom Hto Hf' Hfrom' Hto'. split.
  - intros Ht' E.
    destruct (generateKey_injective _ _ _ _ _ _ Hfrom Hto Hfrom' Hto' E)
      as (E1 & _ & _).
    rewrite <- E1 in Ht'. simpl in Ht'.
    rewrite has_separator_app_bar in Ht'. discriminate.
  - intros E.
    destruct (generateKey_injective _ _ _ _ _ _ Hfrom Hto Hfrom' Hto' E)
      as (E1 & -> & ->).
    destruct (split_at_last_separator _ _ _ _ Hf Hf' E1) as [-> ->]. auto.
Qed.

Lemma entriesSize_In e m : In e m -> calculateItemSize (fst e) (snd e) <= entriesSize m.
Proof.
  induction m as [|x m IH]; simpl; [tauto|].
  intros [->|H].
  - pose proof (entriesSize_nonneg m). lia.
  - specialize (IH H). pose proof (calculateItemSize_pos (fst x) (snd x)). lia.
Qed.

(** X20.  An entry whose own size estimate exceeds the cap is not cached:
    in a store whose accounted size is exact, the [set] that writes it also
    evicts it, and a [get] of the same triple finds nothing. *)
Theorem set_drops_oversized_entry text value sourceTag targetTag c :
  let key := generateKey text sourceTag targetTag in
  let c' := set clock text value sourceTag targetTag c in
  NoDup (keys (cache c)) ->
  currentCacheSize c = entriesSize (cache c) ->
  2 * (len key + len value + len sourceTag + len targetTag) + 8 > maxCacheSize c ->
  Map_get key (cache c') = None /\
  fst (get clock text sourceTag targetTag c') = None.
Proof.
  intros key c' Hnd Hacc Hbig.
  assert (Hnone : Map_get key (cache c') = None).
  { destruct (set_cache_at_key clock text value sourceTag targetTag c) as [Hk|Hk];
      fold key c' in Hk; [|exact Hk].
    exfalso.
    set (stored := set_stored clock text value sourceTag targetTag c).
    assert (Hnd' : NoDup (keys (cache stored)))
      by (unfold stored, set_stored; simpl; now apply NoDup_Map_set).
    destruct (checkAndCleanCacheSize_spec clock stored Hnd')
      as (evicted & kept & _ & _ & _ & _ & _ & _ & Hstop).
    destruct (checkAndCleanCacheSize_fields clock stored) as (_ & _ & Hm & _).
    assert (Hc' : cache c' = cache (checkAndCleanCacheSize clock stored))
      by (unfold c', stored; now rewrite set_unfold, saveCache_cache).
    assert (Hs' : currentCacheSize c' =
                  currentCacheSize (checkAndCleanCacheSize clock stored))
      by (unfold c', stored; now rewrite set_unfold, saveCache_currentCacheSize).
    rewrite <- Hc', <- Hs', Hm in Hstop.
    change (maxCacheSize stored) with (maxCacheSize c) in Hstop.
    apply Map_get_In in Hk.
    destruct Hstop as [Hle|Hempty].
    - pose proof (set_accounted clock text value sourceTag targetTag c Hnd Hacc)
        as Ha. unfold accounted in Ha. fold c' in Ha.
      pose proof (entriesSize_In _ _ Hk) as Hin. cbn [fst snd] in Hin.
      rewrite calculateItemSize_estimate in Hin. unfold byteSizeEstimate in Hin.
      cbn [result from to] in Hin. lia.
    - rewrite Hempty in Hk. exact Hk. }
  split; [exact Hnone|].
  now rewrite (get_miss clock text sourceTag targetTag c' Hnone).
Qed.

End StoreAndLookup.

(** * The translator's use of the cache *)

Section TranslatorFacts.

Variable clock : nat -> Z.

Lemma truthy_false s : truthy s = false <-> s = "".
Proof.
  unfold truthy. destruct (String.eqb_spec s "") as [E|E]; simpl; split;
    auto; try discriminate. intros; contradiction.
Qed.

Lemma truthy_true s : truthy s = true <-> s <> "".
Proof.
  unfold truthy. destruct (String.eqb_spec s "") as [E|E]; simpl; split;
    auto; try discriminate; intros; contradiction.
Qed.

Lemma whenTruthy_Some o v : whenTruthy o = Some v <-> o = Some v /\ v <> "".
Proof.
  unfold whenTruthy, truthyOpt. destruct o as [s|].
  - destruct (truthy s) eqn:E.
    + apply truthy_true in E. split.
      * intros [= ->]. auto.
      * intros [H _]. exact H.
    + apply truthy_false in E. split.
      * discriminate.
      * intros [[= ->] Hv]. contradiction.
  - split; [discriminate | intros [H _]; discriminate].
Qed.

Lemma whenTruthy_None o : whenTruthy o = None <-> o = None \/ o = Some "".
Proof.
  unfold whenTruthy, truthyOpt. destruct o as [s|].
  - destruct (truthy s) eqn:E.
    + apply truthy_true in E. split.
      * discriminate.
      * intros [H|[= H]]; [discriminate | contradiction].
    + apply truthy_false in E. subst s. split; auto.
  - tauto.
Qed.



(** [translate] once its two guards have passed and a cache is there. *)
Lemma translate_with_cache settings text from to formatOption t c :
  Baidu.isConfigValid (Baidu.loadConfig settings t) = true ->
  len text <= 2000 ->
  Baidu.cache t = Some c ->
  let from' := match from with Some f => f | None => "auto" end in
  let to' := match to with Some f => f | None => "zh" end in
  let cfg := Baidu.config (Baidu.loadConfig settings t) in
  let startTime := clock (ticks c) in
  let cacheKey :=
    match formatOption with
    | Some f => if truthy f then (text ++ "|" ++ f)%string else text
    | None => text
    end in
  let r1 := get clock cacheKey from' to' (with_ticks (S (ticks c)) c) in
  Baidu.translate clock settings text from to formatOption t =
  match whenTruthy (fst r1) with
  | Some value =>
      (Baidu.Returns value (clock (ticks (snd r1)) - startTime >? 500),
       Baidu.mkTranslator cfg (Some (with_ticks (S (ticks (snd r1))) (snd r1)))
                          startTime)
  | None =>
      if truthyOpt formatOption then
        let r2 := get clock text from' to' (snd r1) in
        match whenTruthy (fst r2) with
        | Some value =>
            (Baidu.Returns value false,
             Baidu.mkTranslator cfg (Some (snd r2)) startTime)
        | None => (Baidu.Requests, Baidu.mkTranslator cfg (Some (snd r2)) startTime)
        end
      else (Baidu.Requests, Baidu.mkTranslator cfg (Some (snd r1)) startTime)
  end.
Proof.
  intros Hv Hlen Hc from' to' cfg startTime cacheKey r1.
  unfold Baidu.translate. rewrite Hv. cbn [negb].
  destruct (Z.gtb_spec (len text) 2000); [lia|].
  change (Baidu.cache (Baidu.loadConfig settings t)) with (Baidu.cache t).
  rewrite Hc. unfold Date_now. cbv zeta.
  fold from' to' cacheKey cfg startTime.
  change (get clock cacheKey from' to' (with_ticks (S (ticks c)) c)) with r1.
  destruct r1 as [cr c1]. cbn [fst snd].
  destruct (whenTruthy cr); [reflexivity|].
  destruct (truthyOpt formatOption); [|reflexivity].
  destruct (get clock text from' to' c1) as [ocr c2]. reflexivity.
Qed.

(** X13.  A translation stored at the end of one [translate] is served by
    the next [translate] of the same text and language pair without a
    request, provided it is not empty, the eviction left it in the store and
    its age is within the expiration window. *)
Theorem translate_serves_stored_result settings text from to dsts t c :
  let from' := match from with Some f => f | None => "auto" end in
  let to' := match to with Some f => f | None => "zh" end in
  let translatedText := fst (Baidu.translateResult clock text from to dsts t) in
  let t' := snd (Baidu.translateResult clock text from to dsts t) in
  let c' := set clock text translatedText from' to' c in
  Baidu.cache t = Some c ->
  Baidu.isConfigValid (Baidu.loadConfig settings t') = true ->
  len text <= 2000 ->
  translatedText <> "" ->
  Map_has (generateKey text from' to') (cache c') = true ->
  clock (S (S (ticks c'))) - clock (ticks c) <= expirationTime c ->
  exists warned,
    fst (Baidu.translate clock settings text from to None t') =
    Baidu.Returns translatedText warned.
Proof.
  intros from' to' translatedText t' c' Hc Hv Hlen Hne Hhas Hage.
  assert (Ht' : Baidu.cache t' = Some c').
  { unfold t', c', translatedText, Baidu.translateResult. rewrite Hc. reflexivity. }
  rewrite (translate_with_cache settings text from to None t' c' Hv Hlen Ht').
  fold from' to'.
  destruct (set_cache_at_key clock text translatedText from' to' c) as [Hk|Hk];
    fold c' in Hk.
  - rewrite (get_hit clock text from' to' (with_ticks (S (ticks c')) c') _ Hk).
    + cbn [fst snd result].
      assert (Hw : whenTruthy (Some translatedText) = Some translatedText)
        by (apply whenTruthy_Some; auto).
      rewrite Hw. eexists. reflexivity.
    + cbn [ticks with_ticks timestamp expirationTime].
      unfold c'. rewrite set_expirationTime. exact Hage.
  - unfold Map_has in Hhas. rewrite Hk in Hhas. discriminate.
Qed.

(** X14.  A cached translation that is the empty string is never served:
    [translate] goes on to the request, although the cache has counted the
    lookup as a hit. *)
Theorem translate_ignores_empty_cached_value settings text from to t c item :
  let from' := match from with Some f => f | None => "auto" end in
  let to' := match to with Some f => f | None => "zh" end in
  let r := Baidu.translate clock settings text from to None t in
  Baidu.cache t = Some c ->
  Baidu.isConfigValid (Baidu.loadConfig settings t) = true ->
  len text <= 2000 ->
  Map_get (generateKey text from' to') (cache c) = Some item ->
  result item = "" ->
  clock (S (S (ticks c))) - timestamp item <= expirationTime c ->
  fst r = Baidu.Requests /\
  exists c1, Baidu.cache (snd r) = Some c1 /\
             hits (metrics c1) = hits (metrics c) + 1 /\
             misses (metrics c1) = misses (metrics c) /\
             cache c1 = cache c.
Proof.
  intros from' to' r Hc Hv Hlen Hk Hres Hage. unfold r.
  rewrite (translate_with_cache settings text from to None t c Hv Hlen Hc).
  fold from' to'.
  rewrite (get_hit clock text from' to' (with_ticks (S (ticks c)) c) item Hk Hage).
  cbn [fst snd]. rewrite Hres.
  assert (Hw : whenTruthy (Some "") = None) by reflexivity.
  rewrite Hw. cbn [truthyOpt fst snd Baidu.cache].
  split; [reflexivity|]. eexists. split; [reflexivity|].
  cbn. auto.
Qed.

(** X15.  With a format option that has no entry of its own, [translate]
    falls back on the entry of the plain text: it returns that entry's
    value, without a warning, and the cache has counted one miss and one
    hit. *)
Theorem translate_falls_back_on_plain_entry settings text from to f t c item :
  let from' := match from with Some f => f | None => "auto" end in
  let to' := match to with Some f => f | None => "zh" end in
  let r := Baidu.translate clock settings text from to (Some f) t in
  Baidu.cache t = Some c ->
  Baidu.isConfigValid (Baidu.loadConfig settings t) = true ->
  len text <= 2000 ->
  f <> "" ->
  Map_get (generateKey (text ++ "|" ++ f) from' to') (cache c) = None ->
  Map_get (generateKey text from' to') (cache c) = Some item ->
  result item <> "" ->
  clock (S (S (S (ticks c)))) - timestamp item <= expirationTime c ->
  fst r = Baidu.Returns (result item) false /\
  exists c2, Baidu.cache (snd r) = Some c2 /\
             hits (metrics c2) = hits (metrics c) + 1 /\
             misses (metrics c2) = misses (metrics c) + 1 /\
             cache c2 = cache c.
Proof.
  intros from' to' r Hc Hv Hlen Hf Hk1 Hk Hres Hage. unfold r.
  rewrite (translate_with_cache settings text from to (Some f) t c Hv Hlen Hc).
  fold from' to'.
  assert (Htf : truthy f = true) by (now apply truthy_true).
  rewrite Htf.
  rewrite (get_miss clock (text ++ "|" ++ f) from' to'
             (with_ticks (S (ticks c)) c) Hk1).
  cbn [fst snd whenTruthy truthyOpt]. rewrite Htf.
  match goal with
  | |- context [get clock text from' to' ?c1] =>
      rewrite (get_hit clock text from' to' c1 item Hk Hage)
  end.
  cbn [fst snd].
  assert (Hw : whenTruthy (Some (result item)) = Some (result item))
    by (apply whenTruthy_Some; auto).
  rewrite Hw. cbn [fst snd Baidu.cache].
  split; [reflexivity|]. eexists. split; [reflexivity|].
  cbn. auto.
Qed.

End TranslatorFacts.

(** * [escapeHtml] *)

Section EscapeHtml.

Lemma replaceAll_app ch rep (a b : string) :
  replaceAll ch rep (a ++ b) = (replaceAll ch rep a ++ replaceAll ch rep b)%string.
Proof.
  induction a as [|c a IH]; simpl; [reflexivity|].
  destruct (Ascii.eqb c ch); rewrite IH.
  - now rewrite append_assoc_string.
  - reflexivity.
Qed.

Lemma occurs_app ch (a b : string) :
  occurs ch (a ++ b) = occurs ch a || occurs ch b.
Proof.
  induction a as [|c a IH]; simpl; [reflexivity|].
  rewrite IH. now rewrite orb_assoc.
Qed.

Lemma passes_app (a b : string) : passes (a ++ b) = (passes a ++ passes b)%string.
Proof. unfold passes. now rewrite !replaceAll_app. Qed.

Lemma passes_one c : passes (String c EmptyString) = escapeChar c.
Proof.
  unfold passes, escapeChar.
  destruct (Ascii.eqb c "&") eqn:E1;
    [apply Ascii.eqb_eq in E1; subst c; reflexivity|].
  destruct (Ascii.eqb c "<") eqn:E2;
    [apply Ascii.eqb_eq in E2; subst c; reflexivity|].
  destruct (Ascii.eqb c ">") eqn:E3;
    [apply Ascii.eqb_eq in E3; subst c; reflexivity|].
  destruct (Ascii.eqb c dquote) eqn:E4;
    [apply Ascii.eqb_eq in E4; subst c; reflexivity|].
  destruct (Ascii.eqb c "'") eqn:E5;
    [apply Ascii.eqb_eq in E5; subst c; reflexivity|].
  simpl. rewrite E1. simpl. rewrite E2. simpl. rewrite E3. simpl. rewrite E4.
  simpl. rewrite E5. reflexivity.
Qed.

(** The order of the five replacements makes them one substitution of
    characters: no replacement touches what an earlier one has produced. *)
Lemma escapeHtml_one_pass s : escapeHtml s = escapeAll s.
Proof.
  assert (H : passes s = escapeAll s).
  { induction s as [|c s IH]; [reflexivity|].
    change (String c s) with (String c EmptyString ++ s)%string.
    rewrite passes_app, passes_one, IH. reflexivity. }
  unfold escapeHtml. destruct s as [|c s]; [reflexivity|].
  exact H.
Qed.

Lemma escapeChar_cases c :
  (c = "&"%char /\ escapeChar c = "&amp;") \/
  (c = "<"%char /\ escapeChar c = "&lt;") \/
  (c = ">"%char /\ escapeChar c = "&gt;") \/
  (c = dquote /\ escapeChar c = "&quot;") \/
  (c = "'"%char /\ escapeChar c = "&#039;") \/
  (c <> "&"%char /\ c <> "<"%char /\ c <> ">"%char /\ c <> dquote /\
   c <> "'"%char /\ escapeChar c = String c EmptyString).
Proof.
  unfold escapeChar.
  destruct (Ascii.eqb_spec c "&"); [subst; auto|].
  destruct (Ascii.eqb_spec c "<"); [subst; auto|].
  destruct (Ascii.eqb_spec c ">"); [subst; auto 6|].
  destruct (Ascii.eqb_spec c dquote); [subst; auto 8|].
  destruct (Ascii.eqb_spec c "'"); [subst; auto 10|].
  auto 20.
Qed.

(** X16.  The output of [escapeHtml] contains no [<], no [>], no double
    quote and no single quote. *)
Theorem escapeHtml_output_has_no_markup text :
  occurs "<" (escapeHtml text) = false /\
  occurs ">" (escapeHtml text) = false /\
  occurs dquote (escapeHtml text) = false /\
  occurs "'" (escapeHtml text) = false.
Proof.
  rewrite escapeHtml_one_pass.
  induction text as [|c s IH]; [auto|].
  cbn [escapeAll]. rewrite !occurs_app.
  destruct IH as (H1 & H2 & H3 & H4). rewrite H1, H2, H3, H4, !orb_false_r.
  destruct (escapeChar_cases c)
    as [[-> ->]|[[-> ->]|[[-> ->]|[[-> ->]|[[-> ->]|(N1 & N2 & N3 & N4 & N5 & ->)]]]]];
    try (repeat split; reflexivity).
  cbn [occurs]. rewrite !orb_false_r.
  repeat split; apply Ascii.eqb_neq; assumption.
Qed.

Lemma escapeChar_head c :
  exists h tl, escapeChar c = String h tl /\
    ((h = c /\ tl = EmptyString /\ c <> "&"%char) \/
     (h = "&"%char /\ tl <> EmptyString)).
Proof.
  destruct (escapeChar_cases c)
    as [[-> ->]|[[-> ->]|[[-> ->]|[[-> ->]|[[-> ->]|(N1 & _ & _ & _ & _ & ->)]]]]];
    eexists; eexists; (split; [reflexivity|]);
    try (right; split; [reflexivity | discriminate]).
  left. auto.
Qed.

(** Two characters whose escapes, each followed by some text, give the
    same string are the same character, followed by the same text. *)
Lemma escapeChar_prefix_free c1 c2 (r1 r2 : string) :
  (escapeChar c1 ++ r1 = escapeChar c2 ++ r2)%string -> c1 = c2 /\ r1 = r2.
Proof.
  destruct (escapeChar_cases c1)
    as [[-> ->]|[[-> ->]|[[-> ->]|[[-> ->]|[[-> ->]|(A1 & A2 & A3 & A4 & A5 & ->)]]]]];
  destruct (escapeChar_cases c2)
    as [[-> ->]|[[-> ->]|[[-> ->]|[[-> ->]|[[-> ->]|(B1 & B2 & B3 & B4 & B5 & ->)]]]]];
  cbn; intros H; try discriminate H;
    try (injection H as ->; auto; fail);
    try (injection H as E _; congruence).
Qed.

(** X17.  [escapeHtml] loses nothing: two texts with the same escaped form
    are the same text. *)
Theorem escapeHtml_injective a b : escapeHtml a = escapeHtml b -> a = b.
Proof.
  rewrite !escapeHtml_one_pass. revert b.
  induction a as [|c a IH]; intros [|d b]; cbn [escapeAll]; intros H.
  - reflexivity.
  - exfalso. destruct (escapeChar_head d) as (h & tl & E & _).
    rewrite E in H. discriminate.
  - exfalso. destruct (escapeChar_head c) as (h & tl & E & _).
    rewrite E in H. discriminate.
  - apply escapeChar_prefix_free in H. destruct H as [-> H].
    f_equal. now apply IH.
Qed.

End EscapeHtml.

(** * Witnesses of the further properties *)

Lemma NoDup_recentSnapshot : NoDup (keys recentSnapshot).
Proof. simpl. repeat constructor; simpl; intuition discriminate. Qed.

Lemma NoDup_threeEntries : NoDup (keys (cache threeEntries)).
Proof. simpl. repeat constructor; simpl; intuition discriminate. Qed.

(** X1 on [recentSnapshot]. *)
Lemma constructor_keeps_unexpired_witness :
  NoDup (keys recentSnapshot) /\
  cache (constructor tickingClock (Some recentSnapshot) 0 3 20) =
  filter (fun e => negb (expiredAt (tickingClock 1) (3 * 24 * 60 * 60 * 1000) e))
         recentSnapshot.
Proof.
  split; [exact NoDup_recentSnapshot|].
  exact (constructor_keeps_unexpired tickingClock recentSnapshot 0 3 20
           NoDup_recentSnapshot).
Defined.

(** X2 on [recentSnapshot]. *)
Lemma constructor_without_expiry_witness :
  let c := constructor tickingClock (Some recentSnapshot) 0 3 20 in
  NoDup (keys recentSnapshot) /\
  existsb (expiredAt (tickingClock 1) (3 * 24 * 60 * 60 * 1000)) recentSnapshot
    = false /\
  cache c = recentSnapshot /\ currentCacheSize c = entriesSize recentSnapshot /\
  saves c = [] /\ globalState c = Some recentSnapshot.
Proof.
  split; [exact NoDup_recentSnapshot|]. split; [reflexivity|].
  exact (constructor_without_expiry tickingClock recentSnapshot 0 3 20
           NoDup_recentSnapshot eq_refl).
Defined.

(** X3 on [threeEntries], saved and reloaded under [tickingClock]. *)
Lemma saved_snapshot_reloads_witness :
  let c2 := constructor tickingClock
              (globalState (saveCache tickingClock threeEntries)) 0 3 20 in
  NoDup (keys (cache threeEntries)) /\
  tickingClock (ticks threeEntries) - lastSaveTime threeEntries >= 1000 /\
  cache c2 = cache threeEntries /\
  currentCacheSize c2 = entriesSize (cache threeEntries).
Proof.
  assert (H : tickingClock (ticks threeEntries) - lastSaveTime threeEntries >= 1000)
    by (vm_compute; discriminate).
  split; [exact NoDup_threeEntries|]. split; [exact H|].
  exact (saved_snapshot_reloads tickingClock tickingClock threeEntries 0 3 20
           NoDup_threeEntries H eq_refl).
Defined.

Lemma NoDup_oldSnapshot : NoDup (keys (storedEntries (Some oldSnapshot))).
Proof. simpl. repeat constructor; simpl; intuition discriminate. Qed.

(** X4 on an instance that swept an expired entry and then ran
    [threeHitsOneMiss]. *)
Lemma accounted_size_never_under_counts_witness :
  let c := exec tickingClock threeHitsOneMiss
             (constructor tickingClock (Some oldSnapshot) 0 3 20) in
  NoDup (keys (storedEntries (Some oldSnapshot))) /\
  entriesSize (cache c) <= currentCacheSize c.
Proof.
  split; [exact NoDup_oldSnapshot|].
  exact (accounted_size_never_under_counts tickingClock (Some oldSnapshot) 0 3 20
           threeHitsOneMiss NoDup_oldSnapshot).
Defined.

(** X5 on the same instance. *)
Lemma set_keeps_store_within_cap_witness :
  let c := exec tickingClock threeHitsOneMiss
             (constructor tickingClock (Some oldSnapshot) 0 3 20) in
  NoDup (keys (storedEntries (Some oldSnapshot))) /\
  0 <= 20 /\
  entriesSize (cache (set tickingClock "a" "b" "en" "fr" c)) <= 20 * 1024 * 1024.
Proof.
  assert (H : 0 <= 20) by lia.
  split; [exact NoDup_oldSnapshot|]. split; [exact H|].
  exact (set_keeps_store_within_cap tickingClock (Some oldSnapshot) 0 3 20
           threeHitsOneMiss "a" "b" "en" "fr" NoDup_oldSnapshot H).
Defined.

(** X6 on a fresh instance running [threeHitsOneMiss]. *)
Lemma accounting_exact_without_expiry_witness :
  let fresh := constructor tickingClock None 0 3 20 in
  NoDup (keys (storedEntries None)) /\
  ~ In Expired (lookups tickingClock threeHitsOneMiss fresh) /\
  currentCacheSize (exec tickingClock threeHitsOneMiss fresh) =
  entriesSize (cache (exec tickingClock threeHitsOneMiss fresh)).
Proof.
  assert (H1 : NoDup (keys (storedEntries None))) by constructor.
  assert (H2 : ~ In Expired (lookups tickingClock threeHitsOneMiss
                               (constructor tickingClock None 0 3 20))).
  { vm_compute. intuition discriminate. }
  split; [exact H1|]. split; [exact H2|].
  exact (accounting_exact_without_expiry tickingClock None 0 3 20
           threeHitsOneMiss H1 eq_refl H2).
Defined.

(** X7 on two [set] calls under [secondsClock]: both saves are written,
    two seconds apart. *)
Lemma writes_at_least_a_second_apart_witness :
  let c := exec secondsClock
             [OpSet "a" "1" "en" "fr"; OpSet "b" "2" "en" "fr"]
             (constructor secondsClock None 0 3 20) in
  let a := ("a|en|fr", mkItem "1" 1000002000 "en" "fr") in
  let b := ("b|en|fr", mkItem "2" 1000004000 "en" "fr") in
  saves c = [] ++ SaveWritten 1000005000 [a; b]
               :: [] ++ SaveWritten 1000003000 [a] :: [] /\
  1000005000 - 1000003000 >= 1000.
Proof.
  assert (H : saves (exec secondsClock
                       [OpSet "a" "1" "en" "fr"; OpSet "b" "2" "en" "fr"]
                       (constructor secondsClock None 0 3 20)) =
              [] ++ SaveWritten 1000005000
                      [("a|en|fr", mkItem "1" 1000002000 "en" "fr");
                       ("b|en|fr", mkItem "2" 1000004000 "en" "fr")]
                 :: [] ++ SaveWritten 1000003000
                            [("a|en|fr", mkItem "1" 1000002000 "en" "fr")] :: [])
    by reflexivity.
  split; [exact H|].
  exact (writes_at_least_a_second_apart secondsClock None 0 3 20
           [OpSet "a" "1" "en" "fr"; OpSet "b" "2" "en" "fr"]
           [] 1000005000 _ [] 1000003000 _ [] H).
Defined.

(** X8 on a [set] whose save is written. *)
Lemma written_snapshot_is_the_store_witness :
  let c := constructor secondsClock None 0 3 20 in
  let c' := apply_op secondsClock (OpSet "a" "1" "en" "fr") c in
  let a := ("a|en|fr", mkItem "1" 1000002000 "en" "fr") in
  saves c' = SaveWritten 1000003000 [a] :: [] /\
  [a] = cache c' /\ globalState c' = Some (cache c').
Proof.
  assert (H1 : forall text sourceTag targetTag,
             OpSet "a" "1" "en" "fr" <> OpGet text sourceTag targetTag)
    by discriminate.
  assert (H2 : saves (apply_op secondsClock (OpSet "a" "1" "en" "fr")
                        (constructor secondsClock None 0 3 20)) =
               SaveWritten 1000003000
                 [("a|en|fr", mkItem "1" 1000002000 "en" "fr")] :: [])
    by reflexivity.
  split; [exact H2|].
  exact (written_snapshot_is_the_store secondsClock (OpSet "a" "1" "en" "fr")
           (constructor secondsClock None 0 3 20) _ _ _ H1 H2).
Defined.

(** X9 on a [get] that finds what a [set] has stored. *)
Lemma get_touches_only_its_key_witness :
  let c := set tickingClock "x" "y" "auto" "en"
             (constructor tickingClock None 0 3 20) in
  let r := get tickingClock "x" "auto" "en" c in
  fst r = Some "y" /\ cache (snd r) = cache c.
Proof.
  assert (H : fst (get tickingClock "x" "auto" "en"
                     (set tickingClock "x" "y" "auto" "en"
                        (constructor tickingClock None 0 3 20))) = Some "y")
    by reflexivity.
  split; [exact H|].
  exact (proj1 (proj1 (proj2 (get_touches_only_its_key tickingClock
                                "x" "auto" "en"
                                (set tickingClock "x" "y" "auto" "en"
                                   (constructor tickingClock None 0 3 20))))
                  "y" H)).
Defined.

(** X10 on [threeEntries]: the fourth entry fits under the cap of 130
    bytes and is the most recent. *)
Lemma set_then_get_when_entry_fits_witness :
  let c' := set tickingClock "d" "ddd" "en" "fr" threeEntries in
  NoDup (keys (cache threeEntries)) /\
  currentCacheSize threeEntries = entriesSize (cache threeEntries) /\
  calculateItemSize (generateKey "d" "en" "fr")
    (mkItem "ddd" (tickingClock (ticks threeEntries)) "en" "fr")
    <= maxCacheSize threeEntries /\
  tickingClock (S (ticks c')) - tickingClock (ticks threeEntries)
    <= expirationTime threeEntries /\
  fst (get tickingClock "d" "en" "fr" c') = Some "ddd".
Proof.
  assert (H2 : currentCacheSize threeEntries = entriesSize (cache threeEntries))
    by reflexivity.
  assert (H3 : calculateItemSize (generateKey "d" "en" "fr")
                 (mkItem "ddd" (tickingClock (ticks threeEntries)) "en" "fr")
               <= maxCacheSize threeEntries)
    by (vm_compute; discriminate).
  assert (H4 : forall k v, In (k, v) (cache threeEntries) ->
                 k <> generateKey "d" "en" "fr" ->
                 timestamp v < tickingClock (ticks threeEntries)).
  { intros k v HIn _. simpl in HIn.
    destruct HIn as [E|[E|[E|[]]]]; injection E as _ <-; reflexivity. }
  assert (H5 : tickingClock
                 (S (ticks (set tickingClock "d" "ddd" "en" "fr" threeEntries)))
               - tickingClock (ticks threeEntries)
               <= expirationTime threeEntries)
    by (vm_compute; discriminate).
  split; [exact NoDup_threeEntries|]. split; [exact H2|].
  split; [exact H3|]. split; [exact H5|].
  exact (proj2 (set_then_get_when_entry_fits tickingClock "d" "ddd" "en" "fr"
                  threeEntries NoDup_threeEntries H2 H3 H4 H5)).
Defined.

(** X11 on a fresh instance. *)
Lemma set_within_cap_counts_witness :
  let c := constructor tickingClock None 0 3 20 in
  currentCacheSize (set_stored tickingClock "x" "y" "auto" "en" c)
    <= maxCacheSize c /\
  size (set tickingClock "x" "y" "auto" "en" c) = size c + 1.
Proof.
  assert (H : currentCacheSize
                (set_stored tickingClock "x" "y" "auto" "en"
                   (constructor tickingClock None 0 3 20))
              <= maxCacheSize (constructor tickingClock None 0 3 20))
    by (vm_compute; discriminate).
  split; [exact H|].
  exact (set_within_cap_counts tickingClock "x" "y" "auto" "en"
           (constructor tickingClock None 0 3 20) H).
Defined.


(** X13 on a fresh translator: the response [["hola"; "mundo"]] is stored
    and then served. *)
Lemma translate_serves_stored_result_witness :
  let stored := Baidu.translateResult tickingClock "hello world"
                  (Some "auto") (Some "es") ["hola"; "mundo"] freshTranslator in
  fst stored = String.concat (String "010" EmptyString) ["hola"; "mundo"] /\
  exists warned,
    fst (Baidu.translate tickingClock validSettings "hello world"
           (Some "auto") (Some "es") None (snd stored)) =
    Baidu.Returns (fst stored) warned.
Proof.
  split; [reflexivity|].
  refine (translate_serves_stored_result tickingClock validSettings
            "hello world" (Some "auto") (Some "es") ["hola"; "mundo"]
            freshTranslator (constructor tickingClock None 0 3 20)
            eq_refl eq_refl _ _ eq_refl _).
  - vm_compute. discriminate.
  - discriminate.
  - vm_compute. discriminate.
Defined.

(** X14 on [translatorWithEmptyResult]. *)
Lemma translate_ignores_empty_cached_value_witness :
  let r := Baidu.translate tickingClock validSettings "x" None None None
             translatorWithEmptyResult in
  Map_get (generateKey "x" "auto" "zh")
    (cache (constructor tickingClock (Some emptyResultSnapshot) 0 3 20)) =
    Some (mkItem "" 999999000 "auto" "zh") /\
  fst r = Baidu.Requests.
Proof.
  assert (Hk : Map_get (generateKey "x" "auto" "zh")
                 (cache (constructor tickingClock (Some emptyResultSnapshot) 0 3 20))
               = Some (mkItem "" 999999000 "auto" "zh")) by reflexivity.
  split; [exact Hk|].
  refine (proj1 (translate_ignores_empty_cached_value tickingClock validSettings
                   "x" None None translatorWithEmptyResult
                   (constructor tickingClock (Some emptyResultSnapshot) 0 3 20)
                   (mkItem "" 999999000 "auto" "zh")
                   eq_refl eq_refl _ Hk eq_refl _)).
  - vm_compute. discriminate.
  - vm_compute. discriminate.
Defined.

(** X15 on [translatorWithRecent]: there is no entry for the format
    [camelCase], and the plain entry is returned. *)
Lemma translate_falls_back_on_plain_entry_witness :
  let r := Baidu.translate tickingClock validSettings "hi" (Some "en") (Some "de")
             (Some "camelCase") translatorWithRecent in
  "camelCase" <> "" /\
  fst r = Baidu.Returns "v2" false.
Proof.
  assert (Hf : "camelCase" <> "") by discriminate.
  split; [exact Hf|].
  refine (proj1 (translate_falls_back_on_plain_entry tickingClock validSettings
                   "hi" (Some "en") (Some "de") "camelCase" translatorWithRecent
                   (constructor tickingClock (Some recentSnapshot) 0 3 20)
                   (mkItem "v2" 999999000 "en" "de")
                   eq_refl eq_refl _ Hf eq_refl eq_refl _ _)).
  - vm_compute. discriminate.
  - discriminate.
  - vm_compute. discriminate.
Defined.

(** What [escapeHtml] makes of a script element. *)
Example escapeHtml_script :
  escapeHtml "<script>alert('XSS');</script>" =
  "&lt;script&gt;alert(&#039;XSS&#039;);&lt;/script&gt;".
Proof. reflexivity. Qed.

(** X17 on two spellings of one text. *)
Lemma escapeHtml_injective_witness :
  escapeHtml ("a<" ++ "b") = escapeHtml ("a" ++ "<b") /\
  ("a<" ++ "b" = "a" ++ "<b")%string.
Proof.
  assert (H : escapeHtml ("a<" ++ "b") = escapeHtml ("a" ++ "<b")) by reflexivity.
  split; [exact H|].
  exact (escapeHtml_injective ("a<" ++ "b") ("a" ++ "<b") H).
Defined.

(** X18 on an entry read one day and one second after it was stored under
    a window of one day. *)
Lemma set_then_get_after_window_witness :
  let c := constructor dayLaterClock None 0 1 20 in
  let c' := set dayLaterClock "x" "y" "auto" "en" c in
  let r := get dayLaterClock "x" "auto" "en" c' in
  NoDup (keys (cache c)) /\
  Map_has (generateKey "x" "auto" "en") (cache c') = true /\
  dayLaterClock (S (ticks c')) - dayLaterClock (ticks c) > expirationTime c /\
  fst r = None /\
  Map_get (generateKey "x" "auto" "en") (cache (snd r)) = None /\
  size (snd r) = size c' - 1.
Proof.
  assert (H1 : NoDup (keys (cache (constructor dayLaterClock None 0 1 20))))
    by constructor.
  assert (H3 : dayLaterClock
                 (S (ticks (set dayLaterClock "x" "y" "auto" "en"
                              (constructor dayLaterClock None 0 1 20))))
               - dayLaterClock (ticks (constructor dayLaterClock None 0 1 20))
               > expirationTime (constructor dayLaterClock None 0 1 20))
    by reflexivity.
  split; [exact H1|]. split; [reflexivity|]. split; [exact H3|].
  exact (set_then_get_after_window dayLaterClock "x" "y" "auto" "en"
           (constructor dayLaterClock None 0 1 20) H1 eq_refl H3).
Defined.

(** X19 on the slots of ["hi"] with the format ["camelCase"] and of the
    plain text ["hi"]. *)
Lemma format_slots_are_separate_witness :
  has_separator "camelCase" = false /\ has_separator "auto" = false /\
  has_separator "en" = false /\ has_separator "hi" = false /\
  generateKey ("hi" ++ "|" ++ "camelCase") "auto" "en" <>
  generateKey "hi" "auto" "en".
Proof.
  do 4 (split; [reflexivity|]).
  exact (proj1 (format_slots_are_separate
                  "hi" "camelCase" "auto" "en" "hi" "camelCase" "auto" "en"
                  eq_refl eq_refl eq_refl eq_refl eq_refl eq_refl) eq_refl).
Defined.

(** X20 on a cap of 0 bytes. *)
Lemma set_drops_oversized_entry_witness :
  let c := constructor tickingClock None 0 3 0 in
  NoDup (keys (cache c)) /\
  currentCacheSize c = entriesSize (cache c) /\
  2 * (len (generateKey "x" "auto" "en") + len "y" + len "auto" + len "en") + 8
    > maxCacheSize c /\
  fst (get tickingClock "x" "auto" "en" (set tickingClock "x" "y" "auto" "en" c))
    = None.
Proof.
  assert (H1 : NoDup (keys (cache (constructor tickingClock None 0 3 0))))
    by constructor.
  assert (H3 : 2 * (len (generateKey "x" "auto" "en") + len "y" + len "auto"
                    + len "en") + 8
               > maxCacheSize (constructor tickingClock None 0 3 0))
    by reflexivity.
  split; [exact H1|]. split; [reflexivity|]. split; [exact H3|].
  exact (proj2 (set_drops_oversized_entry tickingClock "x" "y" "auto" "en"
                  (constructor tickingClock None 0 3 0) H1 eq_refl H3)).
Defined.
